(** * sqs-consume: the worker loop of [consumer/consumer.go]

    A shallow embedding of [NewSQSConsumer], [handleMessages],
    [pullMessagesRequest], [deleteSqsMessages] and [chunk], and the
    properties the specification states about them. *)

From stdpp Require Import gmap strings list.
From Equations Require Import Equations.
From Stdlib Require Import ZArith Lia.

(** ** Go values *)

(** How a Go computation can fail to produce a value: the run-time panics
    that the code of this file can raise, and a loop that makes no
    progress. *)
Inductive Abort : Set :=
| DivideByZero      (* integer divide by zero *)
| MakeSliceCap      (* makeslice: cap out of range *)
| SliceBounds       (* slice bounds out of range *)
| NilDereference    (* invalid memory address or nil pointer dereference *)
| Hang.             (* a loop whose state no longer changes *)

Inductive Run (A : Type) : Type :=
| Val (a : A)
| Stop (why : Abort).
Arguments Val {A} a.
Arguments Stop {A} why.

(** [len] of a slice, as a Go [int]. *)
Definition len {A} (s : list A) : Z := Z.of_nat (length s).

(** ** aws-sdk-go-v2/service/sqs/types

    Only the fields that consumer.go reads or writes; [*string] is
    [option string], with [None] for nil. *)
Module types.

Record MessageAttributeValue : Set := {
  DataType : option string;
  StringValue : option string;
}.

Record Message : Type := {
  Body : option string;
  MessageAttributes : gmap string MessageAttributeValue;
  MessageId : option string;
  ReceiptHandle : option string;
}.

Record DeleteMessageBatchRequestEntry : Set := {
  Id : option string;
  EntryReceiptHandle : option string;
}.

End types.
Import types.

(** ** chunk *)

(** The [for len(rows) >= chunkSize] loop of [chunk]; its state is
    [(chunks, rows)].  With [chunkSize < 0] the slice expression
    [rows[:chunkSize]] panics; with [chunkSize = 0] an iteration leaves
    [rows] as it was and the loop never exits. *)
Equations? chunk_loop (chunkSize : Z) (rows : list Message) (chunks : list (list Message))
  : Run (list (list Message) * list Message) by wf (length rows) lt :=
  chunk_loop chunkSize rows chunks with decide (chunkSize ≤ len rows)%Z := {
    | right _ := Val (chunks, rows)
    | left _ with decide (0 < chunkSize)%Z := {
        | left _ :=
            chunk_loop chunkSize (drop (Z.to_nat chunkSize) rows)
                       (chunks ++ [take (Z.to_nat chunkSize) rows])
        | right _ := if decide (chunkSize = 0)%Z then Stop Hang else Stop SliceBounds
      }
  }.
Proof.
  rewrite length_drop. unfold len in *. lia.
Qed.

(** [chunk]: the capacity [len(rows)/chunkSize+1] given to [make] is
    computed first, with Go's division (truncated, panicking on 0); a
    slice is shorter than the largest [int], so the sum does not wrap. *)
Definition chunk (rows : list Message) (chunkSize : Z) : Run (list (list Message)) :=
  if decide (chunkSize = 0)%Z then Stop DivideByZero
  else if decide (len rows `quot` chunkSize + 1 < 0)%Z then Stop MakeSliceCap
  else
    match chunk_loop chunkSize rows [] with
    | Val (chunks, rows) =>
        Val (if decide (0 < len rows)%Z then chunks ++ [rows] else chunks)
    | Stop why => Stop why
    end.

(** ** Declarations of the package that consumer.go uses

    [SQSConf], [SQS], [ConsumerFn], the [DeleteStrategy] type and the
    constants are declared in another file of the package.  The fields
    are the ones consumer.go reads: [len(conf.DeleteStrategy)] and the
    comparison with the constants make [DeleteStrategy] a string type,
    the request [pullMessagesRequest] builds makes [WaitTimeSeconds],
    [MaxNumberOfMessages] and [VisibilityTimeout] [int32], and the loop
    bound of [Start] makes [Concurrency] an [int]. *)

(** A non-nil Go [error], identified with its [Error()] text; a value of
    interface type [error] is an [option error], [None] being nil. *)
Definition error : Set := string.

Record SQSConf : Set := {
  Queue : string;
  Concurrency : Z;
  WaitTimeSeconds : Z;
  MaxNumberOfMessages : Z;
  VisibilityTimeout : Z;
  DeleteStrategy : string;
}.

Definition set_DeleteStrategy (v : string) (c : SQSConf) : SQSConf :=
  {| Queue := Queue c; Concurrency := Concurrency c;
     WaitTimeSeconds := WaitTimeSeconds c;
     MaxNumberOfMessages := MaxNumberOfMessages c;
     VisibilityTimeout := VisibilityTimeout c; DeleteStrategy := v |}.

Definition set_Concurrency (v : Z) (c : SQSConf) : SQSConf :=
  {| Queue := Queue c; Concurrency := v;
     WaitTimeSeconds := WaitTimeSeconds c;
     MaxNumberOfMessages := MaxNumberOfMessages c;
     VisibilityTimeout := VisibilityTimeout c;
     DeleteStrategy := DeleteStrategy c |}.

Definition set_WaitTimeSeconds (v : Z) (c : SQSConf) : SQSConf :=
  {| Queue := Queue c; Concurrency := Concurrency c;
     WaitTimeSeconds := v;
     MaxNumberOfMessages := MaxNumberOfMessages c;
     VisibilityTimeout := VisibilityTimeout c;
     DeleteStrategy := DeleteStrategy c |}.

Definition set_MaxNumberOfMessages (v : Z) (c : SQSConf) : SQSConf :=
  {| Queue := Queue c; Concurrency := Concurrency c;
     WaitTimeSeconds := WaitTimeSeconds c;
     MaxNumberOfMessages := v;
     VisibilityTimeout := VisibilityTimeout c;
     DeleteStrategy := DeleteStrategy c |}.

(** The constants and sentinel errors, whose declarations are not in
    consumer.go: parameters of the development. *)
Class Declarations : Set := {
  DeleteStrategyImmediate : string;
  DeleteStrategyOnSuccess : string;
  DefaultConcurrency : Z;
  DefaultWaitTimeSeconds : Z;
  DefaultMaxNumberOfMessages : Z;
  SentinelErrorConfigAws : error;
  SentinelErrorConfigIsNil : error;
  SentinelErrorQueueNotSet : error;
}.

(** ** The SDK's requests and client *)

Record StaticCredentialsProvider : Set := {
  AccessKeyID : string;
  SecretAccessKey : string;
  SessionToken : string;
}.

Record aws_Config : Set := {
  Region : string;
  Credentials : StaticCredentialsProvider;
}.

(** [*sqs.Client], as [sqs.NewFromConfig] builds it: the configuration
    it was built from.  The identity of the pointer is not modelled: Go
    allocates a new client, and a new [SQS], at each construction, and
    two of them that are equal here are not the same object there. *)
Record Client : Set := { client_config : aws_Config }.

Record ReceiveMessageInput : Set := {
  MessageSystemAttributeNames : list string;
  MessageAttributeNames : list string;
  ReceiveQueueUrl : option string;
  ReceiveMaxNumberOfMessages : Z;
  ReceiveVisibilityTimeout : Z;
  ReceiveWaitTimeSeconds : Z;
}.

Record DeleteMessageBatchInput : Set := {
  Entries : list DeleteMessageBatchRequestEntry;
  DeleteQueueUrl : option string;
}.

(** [*SQSConf]: an address in the store of configuration objects, or nil. *)
Definition loc : Set := nat.

Record SQS : Set := {
  config : option loc;
  sqs : Client;
}.

(** ** What a run does to the outside world *)

(** A call to a collaborator, with what it answered. *)
Inductive Event : Type :=
| EvLog (msg : string) (args : list (string * string))
    (* slog.Error(msg, slog.Any(key, value)...) *)
| EvDone (cancelled : bool)
    (* the select on ctx.Done(), and the branch it took *)
| EvReceiveMessage (c : Client) (params : ReceiveMessageInput)
                   (ret : list Message + error)
| EvSleep (d : Z)
    (* time.Sleep(d), d in nanoseconds *)
| EvDeleteMessageBatch (c : Client) (params : DeleteMessageBatchInput)
                       (ret : option error)
| EvConsume (body : list Byte.byte)
            (attrs : gmap string MessageAttributeValue) (ret : option error).
    (* consumeFn(body, attrs) *)

(** The collaborators the code calls: the process environment, the SDK's
    configuration loader, the context and the queue service.  [W] is the
    state of everything outside the worker; the handler acts on it too.
    They do not write the configuration objects: the specification has
    the configuration immutable once the pool is built, so no
    collaborator and no handler changes it while a worker runs.  [Start],
    which runs several workers at once, is not part of the embedding. *)
Class Outside (W : Type) : Type := {
  os_Getenv : W → string → string;
  config_LoadDefaultConfig :
    W → string → StaticCredentialsProvider → aws_Config + error;
  ctx_Done : W → bool * W;
  sqs_ReceiveMessage :
    W → Client → ReceiveMessageInput → (list Message + error) * W;
  sqs_DeleteMessageBatch :
    W → Client → DeleteMessageBatchInput → option error * W;
}.

(** [ConsumerFn]: [func(body []byte, attributes map[string]MessageAttributeValue) error]. *)
Definition ConsumerFn (W : Type) : Type :=
  W → list Byte.byte → gmap string MessageAttributeValue → option error * W.

(** The store of [SQSConf] objects, the outside world, and the calls made
    so far (oldest first). *)
Record State (W : Type) : Type := {
  heap : gmap loc SQSConf;
  world : W;
  trace : list Event;
}.
Arguments heap {W} _.
Arguments world {W} _.
Arguments trace {W} _.
Arguments Build_State {W} _ _ _.

Definition M (W A : Type) : Type := State W → Run A * State W.

#[global] Instance M_ret {W} : MRet (M W) := λ A a st, (Val a, st).

#[global] Instance M_bind {W} : MBind (M W) := λ A B k m st,
  match m st with
  | (Val a, st') => k a st'
  | (Stop why, st') => (Stop why, st')
  end.

Definition lift_run {W A} (r : Run A) : M W A := λ st, (r, st).

Definition emit {W} (e : Event) : M W unit := λ st,
  (Val (), {| heap := heap st; world := world st; trace := trace st ++ [e] |}).

(** Reads the outside world without changing it. *)
Definition observe {W A} (f : W → A) : M W A := λ st, (Val (f (world st)), st).

(** A call that the outside world answers and that may change it. *)
Definition call {W A} (f : W → A * W) : M W A := λ st,
  let '(a, w) := f (world st) in
  (Val a, {| heap := heap st; world := w; trace := trace st |}).

(** [*p] for [p : *SQSConf]. *)
Definition load {W} (p : option loc) : M W SQSConf := λ st,
  match p with
  | Some l =>
      match heap st !! l with
      | Some c => (Val c, st)
      | None => (Stop NilDereference, st)
      end
  | None => (Stop NilDereference, st)
  end.

(** [p.f = v], as [store p (set_f v)]. *)
Definition store {W} (p : option loc) (upd : SQSConf → SQSConf) : M W unit := λ st,
  match p with
  | Some l =>
      match heap st !! l with
      | Some c =>
          (Val (), {| heap := <[l := upd c]> (heap st);
                      world := world st; trace := trace st |})
      | None => (Stop NilDereference, st)
      end
  | None => (Stop NilDereference, st)
  end.

Definition slog_Error {W} (msg : string) (args : list (string * string)) : M W unit :=
  emit (EvLog msg args).

(** [1 * time.Second], a [time.Duration] in nanoseconds. *)
Definition time_Second : Z := 1000000000.

Definition time_Sleep {W} (d : Z) : M W unit := emit (EvSleep d).

(** What one pass through the body of a [for] loop does next. *)
Inductive Next (A : Type) : Type :=
| Return (a : A)
| Continue.
Arguments Return {A} a.
Arguments Continue {A}.

(** ** NewSQSConsumer *)

Section Program.
Context `{Decl : Declarations} {W : Type} `{Out : !Outside W}.

Definition NewSQSConsumer (conf : option loc) : M W (option SQS * option error) :=
  key ← observe (λ w, os_Getenv w "AWS_ACCESS_KEY_ID");
  secret ← observe (λ w, os_Getenv w "AWS_SECRET_ACCESS_KEY");
  region ← observe (λ w, os_Getenv w "AWS_REGION");
  if bool_decide (key = "") || bool_decide (secret = "") || bool_decide (region = "")
  then
    slog_Error "One or more AWS environment variables are not set." [];;
    mret (None, Some SentinelErrorConfigAws)
  else
    let cred := {| AccessKeyID := key; SecretAccessKey := secret; SessionToken := "" |} in
    r ← observe (λ w, config_LoadDefaultConfig w region cred);
    match r with
    | inr _ =>
        slog_Error "Error creation AWS configuration." [];;
        mret (None, Some SentinelErrorConfigAws)
    | inl awsCfg =>
        let sqsClient := {| client_config := awsCfg |} in
        match conf with
        | None => mret (None, Some SentinelErrorConfigIsNil)
        | Some _ =>
            c ← load conf;
            if bool_decide (Queue c = "") then mret (None, Some SentinelErrorQueueNotSet)
            else
              c ← load conf;
              (if bool_decide (String.length (DeleteStrategy c) = 0%nat)
               then store conf (set_DeleteStrategy DeleteStrategyImmediate)
               else mret ());;
              c ← load conf;
              (if bool_decide (Concurrency c = 0%Z)
               then store conf (set_Concurrency DefaultConcurrency)
               else mret ());;
              c ← load conf;
              (if bool_decide (WaitTimeSeconds c = 0%Z)
               then store conf (set_WaitTimeSeconds DefaultWaitTimeSeconds)
               else mret ());;
              c ← load conf;
              (if bool_decide (MaxNumberOfMessages c = 0%Z)
               then store conf (set_MaxNumberOfMessages DefaultMaxNumberOfMessages)
               else mret ());;
              mret (Some {| config := conf; sqs := sqsClient |}, None)
        end
    end.

(** ** pullMessagesRequest *)

Definition pullMessagesRequest (s : SQS) : M W ReceiveMessageInput :=
  c ← load (config s);
  mret {| MessageSystemAttributeNames := ["All"];
          MessageAttributeNames := ["All"];
          ReceiveQueueUrl := Some (Queue c);
          ReceiveMaxNumberOfMessages := MaxNumberOfMessages c;
          ReceiveVisibilityTimeout := VisibilityTimeout c;
          ReceiveWaitTimeSeconds := WaitTimeSeconds c |}.

(** ** deleteSqsMessages *)

(** The body of [for i, v := range chunk]: [batch[i] = ...], from index
    [i] on.  [*v.MessageId] panics on a nil pointer. *)
Fixpoint fill_batch (i : nat) (chunk : list Message)
    (batch : list DeleteMessageBatchRequestEntry)
    : Run (list DeleteMessageBatchRequestEntry) :=
  match chunk with
  | [] => Val batch
  | v :: chunk' =>
      match MessageId v with
      | None => Stop NilDereference
      | Some id =>
          fill_batch (S i) chunk'
            (<[i := {| Id := Some id; EntryReceiptHandle := ReceiptHandle v |}]> batch)
      end
  end.

(** [make([]types.DeleteMessageBatchRequestEntry, n)]. *)
Definition make_batch (n : nat) : list DeleteMessageBatchRequestEntry :=
  replicate n {| Id := None; EntryReceiptHandle := None |}.

Definition DeleteMessageBatch (c : Client) (params : DeleteMessageBatchInput)
    : M W (option error) :=
  ret ← call (λ w, sqs_DeleteMessageBatch w c params);
  emit (EvDeleteMessageBatch c params ret);;
  mret ret.

(** [for _, chunk := range chunks]. *)
Fixpoint delete_chunks (s : SQS) (chunks : list (list Message)) : M W (option error) :=
  match chunks with
  | [] => mret None
  | chunk :: chunks' =>
      batch ← lift_run (fill_batch 0 chunk (make_batch (length chunk)));
      c ← load (config s);
      err ← DeleteMessageBatch (sqs s)
              {| Entries := batch; DeleteQueueUrl := Some (Queue c) |};
      match err with
      | Some e => mret (Some e)
      | None => delete_chunks s chunks'
      end
  end.

Definition deleteSqsMessages (s : SQS) (msg : list Message) : M W (option error) :=
  if bool_decide (len msg = 0%Z) then mret None
  else
    chunks ← lift_run (chunk msg 10);
    delete_chunks s chunks.

(** ** handleMessages *)

Definition ReceiveMessage (c : Client) (params : ReceiveMessageInput)
    : M W (list Message + error) :=
  ret ← call (λ w, sqs_ReceiveMessage w c params);
  emit (EvReceiveMessage c params ret);;
  mret ret.

Definition consume (consumeFn : ConsumerFn W) (body : list Byte.byte)
    (attrs : gmap string MessageAttributeValue) : M W (option error) :=
  ret ← call (λ w, consumeFn w body attrs);
  emit (EvConsume body attrs ret);;
  mret ret.

(** [for _, msg := range result.Messages], with [toDelete] as built so
    far.  The loop has no [return]: it ends with the last message. *)
Fixpoint range_messages (s : SQS) (consumeFn : ConsumerFn W)
    (messages : list Message) (toDelete : list Message) : M W (list Message) :=
  match messages with
  | [] => mret toDelete
  | msg :: messages' =>
      match Body msg with
      | None => lift_run (Stop NilDereference)
      | Some body =>
          err ← consume consumeFn (String.list_byte_of_string body) (MessageAttributes msg);
          match err with
          | Some e =>
              slog_Error "error in consume function" [("error", e)];;
              range_messages s consumeFn messages' toDelete
          | None =>
              c ← load (config s);
              if bool_decide (DeleteStrategy c = DeleteStrategyOnSuccess)
              then range_messages s consumeFn messages' (toDelete ++ [msg])
              else range_messages s consumeFn messages' toDelete
          end
      end
  end.

(** One pass through the body of [for { select { ... } }]. *)
Definition iteration (s : SQS) (consumeFn : ConsumerFn W) : M W (Next (option error)) :=
  cancelled ← call (λ w, ctx_Done w);
  emit (EvDone cancelled);;
  if (cancelled : bool) then mret (Return None)
  else
    req ← pullMessagesRequest s;
    result ← ReceiveMessage (sqs s) req;
    match result with
    | inr err => mret (Return (Some err))
    | inl messages =>
        if bool_decide (len messages = 0%Z) then
          time_Sleep (1 * time_Second);;
          mret Continue
        else
          c ← load (config s);
          err ← (if bool_decide (DeleteStrategy c = DeleteStrategyImmediate)
                 then deleteSqsMessages s messages
                 else mret None);
          match err with
          | Some e => mret (Return (Some e))
          | None =>
              toDelete ← range_messages s consumeFn messages [];
              err ← deleteSqsMessages s toDelete;
              match err with
              | Some e => mret (Return (Some e))
              | None => mret Continue
              end
          end
    end.

(** [handleMessages], for at most [fuel] passes through the loop:
    [Return e] when the function returned [e] within them, [Continue]
    when it is still looping after them. *)
Fixpoint handleMessages (fuel : nat) (s : SQS) (consumeFn : ConsumerFn W)
    : M W (Next (option error)) :=
  match fuel with
  | O => mret Continue
  | S fuel' =>
      r ← iteration s consumeFn;
      match r with
      | Return e => mret (Return e)
      | Continue => handleMessages fuel' s consumeFn
      end
  end.

End Program.

(** ** Reading a trace *)

(** The request entry [deleteSqsMessages] builds for a message. *)
Definition entry_of (v : Message) : DeleteMessageBatchRequestEntry :=
  {| Id := MessageId v; EntryReceiptHandle := ReceiptHandle v |}.

Definition entries_of (messages : list Message)
    : list DeleteMessageBatchRequestEntry :=
  entry_of <$> messages.

(** The entries of each [DeleteMessageBatch] call of a trace. *)
Definition delete_calls (tr : list Event) : list (list DeleteMessageBatchRequestEntry) :=
  omap (λ ev, match ev with
              | EvDeleteMessageBatch _ params _ => Some (Entries params)
              | _ => None
              end) tr.

(** What the handler returned at each of its calls in a trace. *)
Definition consume_rets (tr : list Event) : list (option error) :=
  omap (λ ev, match ev with
              | EvConsume _ _ ret => Some ret
              | _ => None
              end) tr.

(** The arguments of each call of the handler in a trace. *)
Definition consume_args (tr : list Event)
    : list (list Byte.byte * gmap string MessageAttributeValue) :=
  omap (λ ev, match ev with
              | EvConsume body attrs _ => Some (body, attrs)
              | _ => None
              end) tr.

(** The error a transport call answered with, if the event is one. *)
Definition transport_error (ev : Event) : option error :=
  match ev with
  | EvReceiveMessage _ _ (inr e) => Some e
  | EvDeleteMessageBatch _ _ (Some e) => Some e
  | _ => None
  end.

Definition is_delete (ev : Event) : bool :=
  match ev with EvDeleteMessageBatch _ _ _ => true | _ => false end.

Definition is_consume (ev : Event) : bool :=
  match ev with EvConsume _ _ _ => true | _ => false end.

Definition is_receive (ev : Event) : bool :=
  match ev with EvReceiveMessage _ _ _ => true | _ => false end.

(** The arguments the handler gets for a message whose [Body] is set. *)
Definition handler_args (v : Message)
    : list Byte.byte * gmap string MessageAttributeValue :=
  (String.list_byte_of_string (default "" (Body v)), MessageAttributes v).

(** The messages of [messages] at whose position [rets] holds nil: those
    the handler returned nil for, when [rets] lists what it returned
    for each. *)
Definition successes (messages : list Message) (rets : list (option error))
    : list Message :=
  (filter (λ p, p.2 = None) (zip messages rets)).*1.

(** ** A scripted outside world

    A deterministic stand-in for the collaborators, to run the functions
    on concrete inputs: the environment variables, whether loading the
    SDK configuration fails, and the answers of the successive
    [ctx.Done()] checks, [ReceiveMessage] calls and [DeleteMessageBatch]
    calls.  When a script is used up the context is cancelled, receives
    are empty and deletes succeed. *)
Record Script : Type := {
  script_env : gmap string string;
  script_load : option error;
  script_done : list bool;
  script_receive : list (list Message + error);
  script_delete : list (option error);
}.

#[global] Instance Script_Outside : Outside Script := {|
  os_Getenv w name := default "" (script_env w !! name);
  config_LoadDefaultConfig w region cred :=
    match script_load w with
    | Some e => inr e
    | None => inl {| Region := region; Credentials := cred |}
    end;
  ctx_Done w :=
    (default true (head (script_done w)),
     {| script_env := script_env w; script_load := script_load w;
        script_done := tail (script_done w);
        script_receive := script_receive w; script_delete := script_delete w |});
  sqs_ReceiveMessage w _ _ :=
    (default (inl []) (head (script_receive w)),
     {| script_env := script_env w; script_load := script_load w;
        script_done := script_done w;
        script_receive := tail (script_receive w); script_delete := script_delete w |});
  sqs_DeleteMessageBatch w _ _ :=
    (default None (head (script_delete w)),
     {| script_env := script_env w; script_load := script_load w;
        script_done := script_done w;
        script_receive := script_receive w; script_delete := tail (script_delete w) |});
|}.

(** A handler that fails on the bodies listed in [bad]. *)
Definition fails_on {W} (bad : list string) : ConsumerFn W := λ w body _,
  (if bool_decide (String.string_of_list_byte body ∈ bad)
   then Some "handler failed" else None, w).

(** A message as the queue delivers it, with all pointers set. *)
Definition message (id body : string) : Message :=
  {| Body := Some body; MessageAttributes := ∅;
     MessageId := Some id; ReceiptHandle := Some ("rh-" +:+ id) |}.

(** Modelled from the spec: the declarations of the constants are not in
    consumer.go.  The defaults are the ones of the configuration table
    (concurrency 5, wait_time_seconds 10, max_messages_per_poll 10); the
    strategies and the sentinel errors get the names the spec and the
    code give them. *)
Definition spec_declarations : Declarations := {|
  DeleteStrategyImmediate := "Immediate";
  DeleteStrategyOnSuccess := "OnSuccess";
  DefaultConcurrency := 5;
  DefaultWaitTimeSeconds := 10;
  DefaultMaxNumberOfMessages := 10;
  SentinelErrorConfigAws := "SentinelErrorConfigAws";
  SentinelErrorConfigIsNil := "SentinelErrorConfigIsNil";
  SentinelErrorQueueNotSet := "SentinelErrorQueueNotSet";
|}.

Definition aws_env : gmap string string :=
  {[ "AWS_ACCESS_KEY_ID" := "key"; "AWS_SECRET_ACCESS_KEY" := "secret";
     "AWS_REGION" := "eu-west-1" ]}.

Definition test_client : Client :=
  {| client_config :=
       {| Region := "eu-west-1";
          Credentials := {| AccessKeyID := "key"; SecretAccessKey := "secret";
                            SessionToken := "" |} |} |}.

Definition test_conf (strategy : string) : SQSConf :=
  {| Queue := "queue"; Concurrency := 1; WaitTimeSeconds := 10;
     MaxNumberOfMessages := 10; VisibilityTimeout := 30;
     DeleteStrategy := strategy |}.

(** A state with one configuration object, at address 0. *)
Definition test_state (c : SQSConf) (w : Script) : State Script :=
  {| heap := {[ 0 := c ]}; world := w; trace := [] |}.

Definition test_sqs : SQS := {| config := Some 0; sqs := test_client |}.

Definition three : list Message := [message "A" "a"; message "B" "b"; message "C" "c"].

Definition test_script (rs : list (list Message + error)) (ds : list (option error))
    : Script :=
  {| script_env := aws_env; script_load := None; script_done := [false; false];
     script_receive := rs; script_delete := ds |}.

(** ** The shape of the calls a run makes

    [DeleteRun c q chunks tr r]: the [for _, chunk := range chunks] loop
    of [deleteSqsMessages], with client [c] and queue [q], makes the
    calls [tr] and ends with [r]. *)
Definition has_id (v : Message) : Prop := is_Some (MessageId v).
Definition has_body (v : Message) : Prop := is_Some (Body v).

Definition delete_event (c : Client) (q : string) (chunk : list Message)
    (ret : option error) : Event :=
  EvDeleteMessageBatch c
    {| Entries := entry_of <$> chunk; DeleteQueueUrl := Some q |} ret.

Inductive DeleteRun (c : Client) (q : string)
    : list (list Message) → list Event → Run (option error) → Prop :=
| DeleteRun_done :
    DeleteRun c q [] [] (Val None)
| DeleteRun_nil_id chunk chunks :
    ¬ Forall has_id chunk →
    DeleteRun c q (chunk :: chunks) [] (Stop NilDereference)
| DeleteRun_error chunk chunks e :
    Forall has_id chunk →
    DeleteRun c q (chunk :: chunks) [delete_event c q chunk (Some e)] (Val (Some e))
| DeleteRun_next chunk chunks tr r :
    Forall has_id chunk →
    DeleteRun c q chunks tr r →
    DeleteRun c q (chunk :: chunks) (delete_event c q chunk None :: tr) r.

(** [HandleRun onSuccess messages toDelete tr r]: the
    [for _, msg := range result.Messages] loop of [handleMessages],
    entered with [toDelete] and with [onSuccess] telling whether the
    strategy is [DeleteStrategyOnSuccess], makes the calls [tr] and ends
    with [r]. *)
Definition consume_event (v : Message) (ret : option error) : Event :=
  EvConsume (handler_args v).1 (handler_args v).2 ret.

Definition log_event (e : error) : Event :=
  EvLog "error in consume function" [("error", e)].

Inductive HandleRun (onSuccess : bool)
    : list Message → list Message → list Event → Run (list Message) → Prop :=
| HandleRun_done toDelete :
    HandleRun onSuccess [] toDelete [] (Val toDelete)
| HandleRun_nil_body msg messages toDelete :
    ¬ has_body msg →
    HandleRun onSuccess (msg :: messages) toDelete [] (Stop NilDereference)
| HandleRun_failed msg messages toDelete e tr r :
    has_body msg →
    HandleRun onSuccess messages toDelete tr r →
    HandleRun onSuccess (msg :: messages) toDelete
      (consume_event msg (Some e) :: log_event e :: tr) r
| HandleRun_handled msg messages toDelete tr r :
    has_body msg →
    HandleRun onSuccess messages
      (if onSuccess then toDelete ++ [msg] else toDelete) tr r →
    HandleRun onSuccess (msg :: messages) toDelete
      (consume_event msg None :: tr) r.

(** The Go value an event makes [handleMessages] return, if it does:
    nil at the cancellation checkpoint, the error of a transport call. *)
Definition returns (ev : Event) : option (option error) :=
  match ev with
  | EvDone true => Some None
  | EvReceiveMessage _ _ (inr e) => Some (Some e)
  | EvDeleteMessageBatch _ _ (Some e) => Some (Some e)
  | _ => None
  end.

(** The events of the dispatch loop for [messages] when the handler
    returns [rets]: each call, followed by the log line when it failed. *)
Definition handler_events (messages : list Message) (rets : list (option error))
    : list Event :=
  mjoin (zip_with (λ v ret, consume_event v ret ::
                            match ret with
                            | Some e => [log_event e]
                            | None => []
                            end) messages rets).

(** The request [pullMessagesRequest] builds from a configuration. *)
Definition request_of (cf : SQSConf) : ReceiveMessageInput :=
  {| MessageSystemAttributeNames := ["All"];
     MessageAttributeNames := ["All"];
     ReceiveQueueUrl := Some (Queue cf);
     ReceiveMaxNumberOfMessages := MaxNumberOfMessages cf;
     ReceiveVisibilityTimeout := VisibilityTimeout cf;
     ReceiveWaitTimeSeconds := WaitTimeSeconds cf |}.

(** The calls of a pass through the loop of [handleMessages] that polled
    and got [ret]. *)
Definition poll (s : SQS) (cf : SQSConf) (ret : list Message + error) : list Event :=
  [EvDone false; EvReceiveMessage (sqs s) (request_of cf) ret].

(** The state after the calls [tr], which left the outside world as [w]. *)
Definition after {W} (st : State W) (w : W) (tr : list Event) : State W :=
  {| heap := heap st; world := w; trace := trace st ++ tr |}.

(** How an iteration of [handleMessages] goes on from the result of a
    [deleteSqsMessages]: [if err != nil { return err }], and on to what
    follows otherwise. *)
Definition next_of (r : Run (option error)) : Run (Next (option error)) :=
  match r with
  | Val None => Val Continue
  | Val (Some e) => Val (Return (Some e))
  | Stop why => Stop why
  end.

Definition finish {W} (x : Run (option error) * State W)
    : Run (Next (option error)) * State W :=
  (next_of x.1, x.2).

(** The value [handleMessages] returned, if the run is a return. *)
Definition returned (r : Run (Next (option error))) : option (option error) :=
  match r with
  | Val (Return x) => Some x
  | _ => None
  end.

(** [Ends tr ret]: in the calls [tr], the last one makes the function
    return [x] when [ret = Some x] and no other does; none does when
    [ret = None]. *)
Definition Ends (tr : list Event) (ret : option (option error)) : Prop :=
  match ret with
  | Some x =>
      ∃ pre ev, tr = pre ++ [ev] ∧ Forall (λ ev, returns ev = None) pre ∧
                returns ev = Some x
  | None => Forall (λ ev, returns ev = None) tr
  end.

(** The state after [*p = c] for the pointer [p] to address [l]. *)
Definition put {W} (st : State W) (l : loc) (c : SQSConf) : State W :=
  {| heap := <[l := c]> (heap st); world := world st; trace := trace st |}.

(** The configuration object after the four defaulting steps of
    [NewSQSConsumer], in the order of the code. *)
Definition defaulted `{Decl : Declarations} (cf : SQSConf) : SQSConf :=
  let c1 := if bool_decide (String.length (DeleteStrategy cf) = 0%nat)
            then set_DeleteStrategy DeleteStrategyImmediate cf else cf in
  let c2 := if bool_decide (Concurrency c1 = 0%Z)
            then set_Concurrency DefaultConcurrency c1 else c1 in
  let c3 := if bool_decide (WaitTimeSeconds c2 = 0%Z)
            then set_WaitTimeSeconds DefaultWaitTimeSeconds c2 else c2 in
  if bool_decide (MaxNumberOfMessages c3 = 0%Z)
  then set_MaxNumberOfMessages DefaultMaxNumberOfMessages c3 else c3.

(** The environment lets [NewSQSConsumer] build its client: the three
    variables are set and the SDK loads its configuration. *)
Definition aws_ready `{Out : Outside W} (w : W) (awsCfg : aws_Config) : Prop :=
  os_Getenv w "AWS_ACCESS_KEY_ID" ≠ "" ∧
  os_Getenv w "AWS_SECRET_ACCESS_KEY" ≠ "" ∧
  os_Getenv w "AWS_REGION" ≠ "" ∧
  config_LoadDefaultConfig w (os_Getenv w "AWS_REGION")
    {| AccessKeyID := os_Getenv w "AWS_ACCESS_KEY_ID";
       SecretAccessKey := os_Getenv w "AWS_SECRET_ACCESS_KEY";
       SessionToken := "" |} = inl awsCfg.

(** A configuration with every optional field left at its zero value. *)
Definition zero_conf : SQSConf :=
  {| Queue := "queue"; Concurrency := 0; WaitTimeSeconds := 0;
     MaxNumberOfMessages := 0; VisibilityTimeout := 30; DeleteStrategy := "" |}.

(** The scripted world after the cancellation check and the receive of
    a pass through the loop. *)
Definition after_check (w : Script) : Script := (ctx_Done w).2.

Definition after_receive (w : Script) (cf : SQSConf) : Script :=
  (sqs_ReceiveMessage (after_check w) test_client (request_of cf)).2.

(** ** The calls of a whole pass *)

Definition is_done (ev : Event) : bool :=
  match ev with EvDone _ => true | _ => false end.

(** What a call made after the receive of a pass can be: a call of the
    handler, a log line, or a [DeleteMessageBatch] of 1 to 10 entries on
    the queue of the configuration with the client of the pool. *)
Definition inner (s : SQS) (cf : SQSConf) (ev : Event) : Prop :=
  match ev with
  | EvDone _ | EvReceiveMessage _ _ _ | EvSleep _ => False
  | EvDeleteMessageBatch c params _ =>
      c = sqs s ∧ DeleteQueueUrl params = Some (Queue cf) ∧
      1 ≤ length (Entries params) ≤ 10
  | EvLog _ _ | EvConsume _ _ _ => True
  end.

(** [Pass s cf tr]: [tr] is the calls of one pass through the loop of
    [handleMessages] for a pool [s] whose configuration is [cf]. *)
Inductive Pass `{Decl : Declarations} (s : SQS) (cf : SQSConf) : list Event → Prop :=
| Pass_cancelled :
    Pass s cf [EvDone true]
| Pass_idle :
    Pass s cf (poll s cf (inl []) ++ [EvSleep 1000000000])
| Pass_polled ret rest :
    ret ≠ inl [] →
    Forall (inner s cf) rest →
    (DeleteStrategy cf ≠ DeleteStrategyImmediate →
     DeleteStrategy cf ≠ DeleteStrategyOnSuccess → delete_calls rest = []) →
    Pass s cf (poll s cf ret ++ rest).

Inductive Passes `{Decl : Declarations} (s : SQS) (cf : SQSConf) : list Event → Prop :=
| Passes_nil :
    Passes s cf []
| Passes_cons p tr :
    Pass s cf p → Passes s cf tr → Passes s cf (p ++ tr).

(** * Properties *)

(** Unfolds the monad's operations and the calls to the collaborators. *)
Ltac run :=
  cbv beta iota zeta delta
    [mbind M_bind mret M_ret lift_run emit call observe slog_Error time_Sleep
     consume DeleteMessageBatch ReceiveMessage].

(** ** chunk *)

Section Chunk.

Lemma chunk_loop_spec (k : Z) (rows : list Message) (acc : list (list Message)) :
  (0 < k)%Z →
  ∃ full rest,
    chunk_loop k rows acc = Val (acc ++ full, rest) ∧
    concat full ++ rest = rows ∧
    Forall (λ c, len c = k) full ∧
    (len rest < k)%Z.
Proof.
  intros Hk. funelim (chunk_loop k rows acc).
  - exists [], rows. rewrite app_nil_r. repeat split; [constructor | lia].
  - match goal with IH : _ → ∃ _ _, _ |- _ =>
      destruct (IH Hk) as (full & rest & Heq' & Hcat & Hall & Hlt)
    end.
    exists (take (Z.to_nat chunkSize) rows :: full), rest.
    rewrite Heq'. split; [by rewrite <- app_assoc |].
    split; [| split; [| done]].
    + simpl. rewrite <- app_assoc, Hcat. apply take_drop.
    + constructor; [| done]. unfold len in *. rewrite length_take. lia.
  - lia.
Qed.

Lemma len_concat_full (k : Z) (full : list (list Message)) :
  Forall (λ c, len c = k) full → len (concat full) = (len full * k)%Z.
Proof.
  induction 1 as [| c full Hc _ IH]; [done |].
  unfold len in *. simpl. rewrite length_app. lia.
Qed.

(** [chunk] with a positive size: the full chunks the loop cut off,
    then what is left of [rows] when that is not empty. *)
Lemma chunk_spec (rows : list Message) (k : Z) :
  (1 ≤ k)%Z →
  ∃ full rest,
    chunk rows k = Val (full ++ if decide (0 < len rest)%Z then [rest] else []) ∧
    concat full ++ rest = rows ∧
    Forall (λ c, len c = k) full ∧
    (len rest < k)%Z.
Proof.
  intros Hk.
  destruct (chunk_loop_spec k rows [] ltac:(lia)) as (full & rest & Heq & Hcat & Hall & Hlt).
  exists full, rest. split; [| done].
  unfold chunk. rewrite Heq. simpl.
  destruct (decide (k = 0)%Z) as [| _]; [lia |].
  destruct (decide _) as [Hneg | _].
  - pose proof (Z.quot_pos (len rows) k). unfold len in *. lia.
  - destruct (decide (0 < len rest)%Z); [done | by rewrite app_nil_r].
Qed.

(** C3. For every sequence [rows] of length n and every chunk size
    k >= 1, [chunk rows k] returns ceil(n/k) chunks; every chunk but
    the last holds exactly k items and the last holds between 1 and k;
    the chunks concatenated are [rows]; and an empty [rows] gives no
    chunk. *)
Theorem chunk_correct (rows : list Message) (k : Z) :
  (1 ≤ k)%Z →
  ∃ chunks,
    chunk rows k = Val chunks ∧
    len chunks = ((len rows + k - 1) `div` k)%Z ∧
    (∀ i c, chunks !! i = Some c →
       if decide (S i < length chunks) then len c = k else (1 ≤ len c ≤ k)%Z) ∧
    concat chunks = rows ∧
    (rows = [] → chunks = []).
Proof.
  intros Hk.
  destruct (chunk_spec rows k Hk) as (full & rest & Heq & Hcat & Hall & Hlt).
  eexists. split; [exact Heq |].
  pose proof (len_concat_full k full Hall) as Hlen.
  assert (len rows = (len full * k + len rest)%Z) as Hrows.
  { rewrite <- Hcat. unfold len in *. rewrite length_app. lia. }
  assert (0 ≤ len rest)%Z as Hrest by (unfold len; lia).
  assert (0 ≤ len full)%Z as Hfull by (unfold len; lia).
  split; [| split; [| split]].
  - destruct (decide (0 < len rest)%Z).
    + unfold len at 1. rewrite length_app. simpl.
      apply (Z.div_unique_pos _ _ _ (len rest - 1)); unfold len in *; lia.
    + rewrite app_nil_r.
      apply (Z.div_unique_pos _ _ _ (k - 1)); unfold len in *; lia.
  - intros i c Hi.
    destruct (decide (0 < len rest)%Z).
    + rewrite length_app. simpl.
      destruct (decide (i < length full)) as [Hlt' | Hge].
      * rewrite lookup_app_l in Hi by done.
        rewrite decide_True by lia.
        by eapply (Forall_lookup_1 _ full i c) in Hall.
      * rewrite lookup_app_r in Hi by lia.
        rewrite decide_False by lia.
        apply list_lookup_singleton_Some in Hi as [_ <-]. lia.
    + rewrite app_nil_r in *.
      pose proof (lookup_lt_Some _ _ _ Hi).
      eapply (Forall_lookup_1 _ full i c) in Hall; [| done].
      cbn beta in Hall. destruct (decide _); lia.
  - destruct (decide (0 < len rest)%Z) as [| Hz].
    + by rewrite concat_app, <- Hcat; simpl; rewrite app_nil_r.
    + rewrite app_nil_r, <- Hcat.
      assert (rest = []) as -> by (destruct rest; [done | unfold len in Hz; simpl in Hz; lia]).
      by rewrite app_nil_r.
  - intros ->. unfold len in Hrows. simpl in Hrows.
    assert (len rest = 0%Z ∧ len full = 0%Z) as [Hr Hf] by (unfold len in *; nia).
    rewrite decide_False by lia. rewrite app_nil_r.
    destruct full; [done | unfold len in Hf; simpl in Hf; lia].
Qed.

End Chunk.

(** ** Finding an element in a concatenation *)

Section Lists.
Context {A : Type} (P : A → Prop).

Lemma app_split_right (l1 l2 k later : list A) (x : A) :
  l1 ++ l2 = k ++ x :: later →
  Forall (λ y, ¬ P y) l1 → P x →
  ∃ k', k = l1 ++ k' ∧ l2 = k' ++ x :: later.
Proof.
  revert k. induction l1 as [| a l1 IH]; intros k Heq Hall Hx.
  - by exists k.
  - apply Forall_cons in Hall as [Ha Hall].
    destruct k as [| b k]; simpl in Heq.
    + injection Heq as -> _. done.
    + injection Heq as -> Heq.
      destruct (IH k Heq Hall Hx) as (k' & -> & ->). by exists k'.
Qed.

Lemma app_split_left (l1 l2 k later : list A) (x : A) :
  l1 ++ l2 = k ++ x :: later →
  Forall (λ y, ¬ P y) l2 → P x →
  ∃ k', l1 = k ++ x :: k' ∧ later = k' ++ l2.
Proof.
  revert k. induction l1 as [| a l1 IH]; intros k Heq Hall Hx.
  - simpl in Heq. subst l2. apply Forall_app in Hall as [_ Hall].
    by apply Forall_cons in Hall as [? _].
  - destruct k as [| b k]; simpl in Heq.
    + injection Heq as -> <-. by exists l1.
    + injection Heq as -> Heq.
      destruct (IH k Heq Hall Hx) as (k' & -> & ->). by exists k'.
Qed.

End Lists.

(** ** The calls of the two loops *)

Section Shapes.

Lemma delete_calls_app (tr1 tr2 : list Event) :
  delete_calls (tr1 ++ tr2) = delete_calls tr1 ++ delete_calls tr2.
Proof. apply omap_app. Qed.

Lemma consume_rets_app (tr1 tr2 : list Event) :
  consume_rets (tr1 ++ tr2) = consume_rets tr1 ++ consume_rets tr2.
Proof. apply omap_app. Qed.

Lemma consume_args_app (tr1 tr2 : list Event) :
  consume_args (tr1 ++ tr2) = consume_args tr1 ++ consume_args tr2.
Proof. apply omap_app. Qed.

Lemma successes_cons (v : Message) (ret : option error) messages rets :
  successes (v :: messages) (ret :: rets) =
    (if ret is None then [v] else []) ++ successes messages rets.
Proof.
  unfold successes. simpl. rewrite filter_cons. simpl.
  destruct ret; by destruct (decide _).
Qed.

Lemma handler_events_cons (v : Message) (ret : option error) messages rets :
  handler_events (v :: messages) (ret :: rets) =
    consume_event v ret :: (if ret is Some e then [log_event e] else []) ++
    handler_events messages rets.
Proof. done. Qed.

Lemma entries_of_concat (chunks : list (list Message)) :
  concat (entries_of <$> chunks) = entries_of (concat chunks).
Proof.
  induction chunks as [| c chunks IH]; [done |].
  change (concat (entries_of <$> c :: chunks))
    with (entries_of c ++ concat (entries_of <$> chunks)).
  rewrite IH. change (concat (c :: chunks)) with (c ++ concat chunks).
  unfold entries_of. by rewrite fmap_app.
Qed.

Lemma DeleteRun_calls c q chunks tr r :
  DeleteRun c q chunks tr r →
  Forall (λ ev, is_delete ev = true) tr ∧
  delete_calls tr `prefix_of` (entries_of <$> chunks) ∧
  (r = Val None → delete_calls tr = (entries_of <$> chunks)).
Proof.
  induction 1 as [| chunk chunks Hid | chunk chunks e Hid
                  | chunk chunks tr r Hid Hrun (Hdel & Hpre & Hall)].
  - by repeat split.
  - repeat split; [constructor | apply prefix_nil | done].
  - repeat split; [by repeat constructor | | done].
    simpl. apply prefix_cons, prefix_nil.
  - repeat split.
    + by constructor.
    + simpl. by apply prefix_cons.
    + intros ->. simpl. by rewrite Hall.
Qed.

Lemma DeleteRun_Ends c q chunks tr r :
  DeleteRun c q chunks tr r →
  Ends tr (returned (next_of r)).
Proof.
  induction 1 as [| chunk chunks Hid | chunk chunks e Hid
                  | chunk chunks tr r Hid Hrun IH]; simpl.
  - constructor.
  - constructor.
  - by exists [], (delete_event c q chunk (Some e)).
  - unfold next_of, returned in *. simpl in *.
    destruct r as [[e |] | why]; simpl in *.
    + destruct IH as (pre & ev & -> & Hpre & Hev).
      exists (delete_event c q chunk None :: pre), ev. by repeat split; [constructor |].
    + by constructor.
    + by constructor.
Qed.

Lemma HandleRun_events b messages toDelete tr r :
  HandleRun b messages toDelete tr r →
  tr = handler_events messages (consume_rets tr) ∧
  length (consume_rets tr) ≤ length messages ∧
  (∀ toDelete', r = Val toDelete' →
     length (consume_rets tr) = length messages ∧
     toDelete' = toDelete ++ if b then successes messages (consume_rets tr) else []) ∧
  (Forall has_body messages → ∃ toDelete', r = Val toDelete').
Proof.
  induction 1 as [toDelete | msg messages toDelete Hb
                  | msg messages toDelete e tr r Hb Hrun (Htr & Hlen & Hval & Hall)
                  | msg messages toDelete tr r Hb Hrun (Htr & Hlen & Hval & Hall)].
  - split; [done |]. split; [done |]. split; [| by eexists].
    intros ? [= <-]. by destruct b; rewrite app_nil_r.
  - split; [done |]. split; [simpl; lia |]. split; [done |].
    intros Hall. by apply Forall_cons in Hall as [? _].
  - simpl. split; [| split; [| split]].
    + rewrite handler_events_cons. simpl. by rewrite <- Htr.
    + lia.
    + intros td' ->. destruct (Hval _ eq_refl) as [-> ->].
      by rewrite successes_cons.
    + intros Hall'. apply Hall. by apply Forall_cons in Hall' as [_ ?].
  - simpl. split; [| split; [| split]].
    + rewrite handler_events_cons. simpl. by rewrite <- Htr.
    + lia.
    + intros td' ->. destruct (Hval _ eq_refl) as [-> ->].
      rewrite successes_cons. destruct b; [| done].
      by rewrite <- app_assoc.
    + intros Hall'. apply Hall. by apply Forall_cons in Hall' as [_ ?].
Qed.

Lemma deletes_no_consume (tr : list Event) :
  Forall (λ ev, is_delete ev = true) tr →
  Forall (λ ev, ¬ is_consume ev = true) tr ∧ consume_args tr = [].
Proof.
  induction 1 as [| ev tr Hev _ [IH1 IH2]]; [by split |].
  destruct ev; try done. split; [by constructor |]. done.
Qed.

Lemma successes_all_failed messages rets :
  Forall (λ ret, ret ≠ None) rets → successes messages rets = [].
Proof.
  intros Hall. revert messages.
  induction Hall as [| ret rets Hret _ IH]; intros [| v messages]; try done.
  rewrite successes_cons, IH. by destruct ret.
Qed.

Lemma returns_transport_error ev e :
  returns ev = Some (Some e) ↔ transport_error ev = Some e.
Proof.
  destruct ev as [| [|] | ? ? [|] | | ? ? [|] |]; simpl; split; congruence.
Qed.

Lemma returns_cancelled ev : returns ev = Some None ↔ ev = EvDone true.
Proof.
  destruct ev as [| [|] | ? ? [|] | | ? ? [|] |]; simpl; split; congruence.
Qed.

Lemma Ends_app tr1 tr2 ret :
  Forall (λ ev, returns ev = None) tr1 → Ends tr2 ret → Ends (tr1 ++ tr2) ret.
Proof.
  intros Hquiet. destruct ret as [x |]; simpl.
  - intros (pre & ev & -> & Hpre & Hev).
    exists (tr1 ++ pre), ev. rewrite app_assoc.
    split; [done |]. split; [by apply Forall_app | done].
  - intros Htr2. by apply Forall_app.
Qed.

(** In a run that [Ends], a call that makes the function return is the
    last one, and the function returns what it says. *)
Lemma Ends_last tr ret before ev later x :
  Ends tr ret → tr = before ++ ev :: later → returns ev = Some x →
  later = [] ∧ ret = Some x.
Proof.
  intros Hends -> Hev. destruct ret as [y |]; simpl in Hends.
  - destruct Hends as (pre & ev' & Heq & Hpre & Hev').
    symmetry in Heq.
    destruct (app_split_right (λ ev, returns ev ≠ None) _ _ _ _ _ Heq)
      as (k & -> & Hk).
    + eapply Forall_impl; [exact Hpre |]. intros ? ->. by intros ?.
    + by rewrite Hev.
    + destruct k as [| ? [| ? ?]]; try done.
      injection Hk as -> <-. split; [done | congruence].
  - apply Forall_app in Hends as [_ Hends].
    apply Forall_cons in Hends as [Hends _]. congruence.
Qed.

Lemma handler_events_quiet messages rets :
  Forall (λ ev, returns ev = None ∧ is_delete ev = false ∧ is_receive ev = false)
         (handler_events messages rets).
Proof.
  revert rets. induction messages as [| v messages IH]; intros [| ret rets];
    try by constructor.
  rewrite handler_events_cons. constructor; [done |].
  apply Forall_app. split; [| apply IH].
  destruct ret; by repeat constructor.
Qed.

Lemma handler_events_no_delete messages rets :
  delete_calls (handler_events messages rets) = [].
Proof.
  revert rets. induction messages as [| v messages IH]; intros [| ret rets];
    try done.
  rewrite handler_events_cons. simpl. rewrite delete_calls_app, IH.
  by destruct ret.
Qed.

Lemma handler_events_rets messages rets :
  length rets = length messages →
  consume_rets (handler_events messages rets) = rets ∧
  consume_args (handler_events messages rets) = handler_args <$> messages.
Proof.
  revert rets. induction messages as [| v messages IH]; intros [| ret rets] Hlen;
    try done.
  rewrite handler_events_cons. simpl.
  rewrite consume_rets_app, consume_args_app.
  destruct (IH rets) as [-> ->]; [simpl in Hlen; lia |].
  by destruct ret.
Qed.

End Shapes.

(** ** Runs of the worker's functions *)

Section Worker.
Context `{Decl : Declarations} {W : Type} `{Out : !Outside W}.
Implicit Types (s : SQS) (st : State W) (consumeFn : ConsumerFn W).

Lemma fill_batch_spec (chunk : list Message) :
  ∀ i batch,
    i + length chunk ≤ length batch →
    Forall has_id chunk →
    fill_batch i chunk batch =
      Val (take i batch ++ (entry_of <$> chunk) ++ drop (i + length chunk) batch).
Proof.
  induction chunk as [| v chunk IH]; intros i batch Hlen Hid; simpl.
  - by rewrite Nat.add_0_r, take_drop.
  - apply Forall_cons in Hid as [[id Hv] Hid]. rewrite Hv.
    rewrite IH; [| rewrite length_insert; simpl in Hlen; lia | done].
    f_equal. simpl in Hlen.
    rewrite (take_S_r _ i {| Id := Some id; EntryReceiptHandle := ReceiptHandle v |})
      by (apply list_lookup_insert_eq; lia).
    rewrite take_insert_ge by lia.
    rewrite drop_insert_lt by lia.
    rewrite <- app_assoc. simpl. unfold entry_of at 2. rewrite Hv.
    by replace (i + S (length chunk)) with (S (i + length chunk)) by lia.
Qed.

Lemma fill_batch_nil_id (chunk : list Message) :
  ∀ i batch, ¬ Forall has_id chunk → fill_batch i chunk batch = Stop NilDereference.
Proof.
  induction chunk as [| v chunk IH]; intros i batch Hid; simpl.
  - destruct Hid. constructor.
  - destruct (MessageId v) as [id |] eqn:Hv; [| done].
    apply IH. intros Hall. apply Hid. constructor; [| done].
    unfold has_id. by rewrite Hv.
Qed.

Lemma fill_batch_make (chunk : list Message) :
  Forall has_id chunk →
  fill_batch 0 chunk (make_batch (length chunk)) = Val (entry_of <$> chunk).
Proof.
  intros Hid. rewrite fill_batch_spec; [| | done].
  - simpl. rewrite drop_ge, app_nil_r; [done |].
    unfold make_batch. by rewrite length_replicate.
  - unfold make_batch. by rewrite length_replicate.
Qed.

Lemma after_after st w tr w' tr' :
  after (after st w tr) w' tr' = after st w' (tr ++ tr').
Proof. unfold after. simpl. by rewrite app_assoc. Qed.

Lemma after_nil st : after st (world st) [] = st.
Proof. destruct st. unfold after. simpl. by rewrite app_nil_r. Qed.

Lemma delete_chunks_run s l cf (chunks : list (list Message)) :
  config s = Some l →
  ∀ st, heap st !! l = Some cf →
  ∃ tr r w,
    delete_chunks s chunks st = (r, after st w tr) ∧
    DeleteRun (sqs s) (Queue cf) chunks tr r.
Proof.
  intros Hs. induction chunks as [| chunk chunks IH]; intros st Hst.
  - exists [], (Val None), (world st). rewrite after_nil. split; [done | constructor].
  - simpl. unfold mbind, M_bind, lift_run.
    destruct (decide (Forall has_id chunk)) as [Hid | Hid].
    + rewrite fill_batch_make by done.
      unfold load. rewrite Hs, Hst.
      unfold DeleteMessageBatch, mbind, M_bind, call, emit, mret, M_ret. simpl.
      destruct (sqs_DeleteMessageBatch _ _ _) as [[e |] w] eqn:Hcall.
      * eexists [_], _, w. split; [done |]. by constructor.
      * match goal with |- context [delete_chunks s chunks ?st1] =>
          destruct (IH st1 Hst) as (tr & r & w' & Heq & Hrun); rewrite Heq
        end.
        eexists (_ :: tr), r, w'. split.
        -- unfold after. simpl. by rewrite <- app_assoc.
        -- by constructor.
    + rewrite fill_batch_nil_id by done.
      exists [], (Stop NilDereference), (world st). rewrite after_nil.
      split; [done | by constructor].
Qed.

Lemma range_messages_run s l cf consumeFn (messages : list Message) :
  config s = Some l →
  ∀ toDelete st, heap st !! l = Some cf →
  ∃ tr r w,
    range_messages s consumeFn messages toDelete st = (r, after st w tr) ∧
    HandleRun (bool_decide (DeleteStrategy cf = DeleteStrategyOnSuccess))
              messages toDelete tr r.
Proof.
  intros Hs. induction messages as [| msg messages IH]; intros toDelete st Hst.
  - exists [], (Val toDelete), (world st). rewrite after_nil. split; [done | constructor].
  - simpl. destruct (Body msg) as [body |] eqn:Hbody.
    + assert (has_body msg) as Hb by (unfold has_body; by rewrite Hbody).
      assert (consume_event msg = EvConsume (String.list_byte_of_string body)
                                            (MessageAttributes msg)) as Hev.
      { unfold consume_event, handler_args. by rewrite Hbody. }
      run. destruct (consumeFn _ _ _) as [[e |] w] eqn:Hcall; simpl.
      * match goal with |- context [range_messages s consumeFn messages toDelete ?st1] =>
          destruct (IH toDelete st1 Hst) as (tr & r & w' & Heq & Hrun); rewrite Heq
        end.
        eexists (_ :: _ :: tr), r, w'. split.
        -- unfold after. simpl. by rewrite <- !app_assoc.
        -- rewrite <- Hev. by constructor.
      * unfold load. rewrite Hs. simpl. rewrite Hst.
        destruct (bool_decide (DeleteStrategy cf = DeleteStrategyOnSuccess)) eqn:Hon.
        all: match goal with |- context [range_messages _ _ _ ?td ?st1] =>
               destruct (IH td st1 Hst) as (tr & r & w' & Heq & Hrun); rewrite Heq
             end.
        all: eexists (_ :: tr), r, w'; split;
             [unfold after; simpl; by rewrite <- !app_assoc |].
        all: rewrite <- Hev; by constructor.
    + exists [], (Stop NilDereference), (world st). rewrite after_nil.
      split; [done |]. constructor. unfold has_body. rewrite Hbody.
      by intros [? ?].
Qed.

Lemma config_cases s st :
  (∃ l cf, config s = Some l ∧ heap st !! l = Some cf) ∨
  (∀ w tr, load (config s) (after st w tr) = (Stop NilDereference, after st w tr)).
Proof.
  destruct (config s) as [l |] eqn:Hs; [| by right].
  destruct (heap st !! l) as [cf |] eqn:Hst; [left; eauto |].
  right. intros w tr. unfold load. simpl. by rewrite Hst.
Qed.

Lemma load_valid s st l cf :
  config s = Some l → heap st !! l = Some cf → load (config s) st = (Val cf, st).
Proof. intros -> Hst. unfold load. by rewrite Hst. Qed.

(** [chunk msg 10] always returns, with between 1 and 10 messages in
    each chunk. *)
Lemma chunk_10 (msg : list Message) :
  ∃ chunks,
    chunk msg 10 = Val chunks ∧ concat chunks = msg ∧
    Forall (λ c, 1 ≤ length c ≤ 10) chunks.
Proof.
  destruct (chunk_spec msg 10 ltac:(lia)) as (full & rest & Heq & Hcat & Hall & Hlt).
  eexists. split; [exact Heq |].
  assert (Forall (λ c : list Message, 1 ≤ length c ≤ 10) full) as Hfull.
  { eapply Forall_impl; [exact Hall |]. intros c Hc. unfold len in Hc. simpl in Hc. lia. }
  destruct (decide (0 < len rest)%Z) as [Hpos | Hz].
  - split; [by rewrite concat_app; simpl; rewrite app_nil_r |].
    apply Forall_app. split; [done |]. constructor; [| done].
    unfold len in *. lia.
  - rewrite app_nil_r. split; [| done].
    assert (rest = []) as -> by (destruct rest; [done | unfold len in Hz; simpl in Hz; lia]).
    by rewrite app_nil_r in Hcat.
Qed.

Lemma chunk_10_nil : chunk [] 10 = Val [].
Proof. reflexivity. Qed.

Lemma deleteSqsMessages_run s l cf (msg : list Message) st :
  config s = Some l → heap st !! l = Some cf →
  ∃ chunks tr r w,
    chunk msg 10 = Val chunks ∧
    deleteSqsMessages s msg st = (r, after st w tr) ∧
    DeleteRun (sqs s) (Queue cf) chunks tr r.
Proof.
  intros Hs Hst. unfold deleteSqsMessages.
  destruct (chunk_10 msg) as (chunks & Heq & _ & _).
  case_bool_decide as Hlen.
  - assert (msg = []) as -> by (destruct msg; [done | unfold len in Hlen; simpl in Hlen; lia]).
    exists [], [], (Val None), (world st). rewrite after_nil.
    split; [apply chunk_10_nil |]. split; [done | constructor].
  - exists chunks. run. rewrite Heq.
    destruct (delete_chunks_run s l cf chunks Hs st Hst) as (tr & r & w & Hrun & Hshape).
    by exists tr, r, w.
Qed.

Lemma deleteSqsMessages_noconf s (msg : list Message) st :
  load (config s) st = (Stop NilDereference, st) →
  ∃ r, deleteSqsMessages s msg st = (r, st).
Proof.
  intros Hload. unfold deleteSqsMessages.
  case_bool_decide; [by eexists |].
  destruct (chunk_10 msg) as (chunks & -> & _ & _).
  run. destruct chunks as [| c chunks]; [by eexists |].
  simpl. run. destruct (fill_batch _ _ _); [| by eexists].
  rewrite Hload. by eexists.
Qed.

(** C7. Every [DeleteMessageBatch] call that [deleteSqsMessages] makes
    carries between 1 and 10 entries; with no message to delete it
    returns nil and makes no call; and when it returns nil the calls
    carried, in order, the entries of all the messages. *)
Theorem delete_batches_bounded s (msg : list Message) st :
  ∃ r w tr,
    deleteSqsMessages s msg st = (r, after st w tr) ∧
    Forall (λ entries, 1 ≤ length entries ≤ 10) (delete_calls tr) ∧
    (msg = [] → r = Val None ∧ w = world st ∧ tr = []) ∧
    (r = Val None → concat (delete_calls tr) = entries_of msg).
Proof.
  destruct (config_cases s st) as [(l & cf & Hs & Hst) | Hno].
  - destruct (deleteSqsMessages_run s l cf msg st Hs Hst)
      as (chunks & tr & r & w & Hchunk & Hrun & Hshape).
    destruct (chunk_10 msg) as (chunks' & Hchunk' & Hcat & Hsize).
    assert (chunks' = chunks) as -> by congruence.
    destruct (DeleteRun_calls _ _ _ _ _ Hshape) as (_ & Hpre & Hall).
    exists r, w, tr. split; [done |]. split; [| split].
    + destruct Hpre as [rest Hrest].
      assert (Forall (λ entries, 1 ≤ length entries ≤ 10) (entries_of <$> chunks)) as Hb.
      { apply Forall_fmap. eapply Forall_impl; [exact Hsize |].
        intros c Hc. simpl. unfold entries_of. by rewrite length_fmap. }
      rewrite Hrest in Hb. by apply Forall_app in Hb as [? _].
    + intros ->. unfold deleteSqsMessages in Hrun. simpl in Hrun.
      injection Hrun as <- Hafter.
      assert (trace (after st w tr) = trace st) as Htr by (by rewrite <- Hafter).
      assert (world (after st w tr) = world st) as Hw by (by rewrite <- Hafter).
      simpl in Htr, Hw. split; [done |]. split; [done |].
      rewrite <- (app_nil_r (trace st)) in Htr at 2. by apply app_inv_head in Htr.
    + intros ->. by rewrite (Hall eq_refl), <- Hcat, entries_of_concat.
  - specialize (Hno (world st) []). rewrite after_nil in Hno.
    destruct (deleteSqsMessages_noconf s msg st Hno) as [r Hrun].
    exists r, (world st), []. rewrite after_nil.
    split; [done |]. split; [constructor |]. split.
    + intros ->. unfold deleteSqsMessages in Hrun. simpl in Hrun. by injection Hrun as <-.
    + intros ->. destruct msg as [| v msg]; [done |].
      unfold deleteSqsMessages in Hrun. simpl in Hrun.
      destruct (chunk_10 (v :: msg)) as (chunks & Hchunk & Hcat & _).
      revert Hrun. run. rewrite Hchunk.
      destruct chunks as [| c chunks]; [done |].
      simpl. run. destruct (fill_batch _ _ _); [| done].
      by rewrite Hno.
Qed.

(** *** One pass through the loop of [handleMessages] *)

Lemma pullMessagesRequest_valid s l cf st :
  config s = Some l → heap st !! l = Some cf →
  pullMessagesRequest s st = (Val (request_of cf), st).
Proof.
  intros Hs Hst. unfold pullMessagesRequest. run.
  by rewrite (load_valid s st l cf).
Qed.

Lemma iteration_cancelled s consumeFn st w :
  ctx_Done (world st) = (true, w) →
  iteration s consumeFn st = (Val (Return None), after st w [EvDone true]).
Proof. intros Hdone. unfold iteration. run. by rewrite Hdone. Qed.

Lemma iteration_noconf s consumeFn st w :
  ctx_Done (world st) = (false, w) →
  (∀ w tr, load (config s) (after st w tr) = (Stop NilDereference, after st w tr)) →
  iteration s consumeFn st = (Stop NilDereference, after st w [EvDone false]).
Proof.
  intros Hdone Hno. unfold iteration, pullMessagesRequest. run. rewrite Hdone. simpl.
  specialize (Hno w [EvDone false]). unfold after in Hno. by rewrite Hno.
Qed.

Section Polled.
Context (s : SQS) (consumeFn : ConsumerFn W) (st : State W).
Context (l : loc) (cf : SQSConf) (w1 w2 : W) (ret : list Message + error).
Hypothesis Hs : config s = Some l.
Hypothesis Hst : heap st !! l = Some cf.
Hypothesis Hdone : ctx_Done (world st) = (false, w1).
Hypothesis Hrecv : sqs_ReceiveMessage w1 (sqs s) (request_of cf) = (ret, w2).

Lemma iteration_receive_error e :
  ret = inr e →
  iteration s consumeFn st = (Val (Return (Some e)), after st w2 (poll s cf ret)).
Proof.
  intros ->. unfold iteration. run. rewrite Hdone. simpl.
  rewrite (pullMessagesRequest_valid s l cf) by done.
  simpl. rewrite Hrecv. unfold after, poll. simpl.
  by rewrite <- app_assoc.
Qed.

Lemma iteration_empty :
  ret = inl [] →
  iteration s consumeFn st =
    (Val Continue, after st w2 (poll s cf ret ++ [EvSleep 1000000000])).
Proof.
  intros ->. unfold iteration. run. rewrite Hdone. simpl.
  rewrite (pullMessagesRequest_valid s l cf) by done.
  simpl. rewrite Hrecv. unfold after, poll. simpl.
  by rewrite <- !app_assoc.
Qed.

(** With messages received: the acknowledgment of the whole batch
    under [DeleteStrategyImmediate], the dispatch loop, and the
    acknowledgment of [toDelete]. *)
Lemma iteration_batch messages :
  ret = inl messages → messages ≠ [] →
  iteration s consumeFn st =
    let st1 := after st w2 (poll s cf ret) in
    let '(r1, st2) :=
      if bool_decide (DeleteStrategy cf = DeleteStrategyImmediate)
      then deleteSqsMessages s messages st1 else (Val None, st1) in
    match r1 with
    | Val None =>
        let '(rd, st3) := range_messages s consumeFn messages [] st2 in
        match rd with
        | Val toDelete => finish (deleteSqsMessages s toDelete st3)
        | Stop why => (Stop why, st3)
        end
    | _ => (next_of r1, st2)
    end.
Proof.
  intros -> Hne. unfold iteration. run. rewrite Hdone. simpl.
  rewrite (pullMessagesRequest_valid s l cf) by done.
  simpl. rewrite Hrecv. simpl.
  rewrite bool_decide_false
    by (destruct messages; [done | unfold len; simpl; lia]).
  unfold load at 1. rewrite Hs. simpl. rewrite Hst.
  assert ({| heap := heap st; world := w2;
             trace := (trace st ++ [EvDone false]) ++
                      [EvReceiveMessage (sqs s) (request_of cf) (inl messages)] |}
          = after st w2 (poll s cf (inl messages))) as ->.
  { unfold after, poll. by rewrite <- app_assoc. }
  case_bool_decide.
  - destruct (deleteSqsMessages s messages _) as [[[e |] | why] st2]; try done.
    destruct (range_messages _ _ _ _ _) as [[td | why] st3]; [| done].
    unfold finish. by destruct (deleteSqsMessages s td st3) as [[[e |] | why] st4].
  - destruct (range_messages _ _ _ _ _) as [[td | why] st3]; [| done].
    unfold finish. by destruct (deleteSqsMessages s td st3) as [[[e |] | why] st4].
Qed.

End Polled.

(** C9. When a receive call returns no message, the pass through the
    loop makes three calls: the cancellation check, the receive, and a
    sleep of one second (10^9 ns); it calls neither the handler nor
    [DeleteMessageBatch], it does not return, and the rest of the loop,
    with its next receive, runs from the state after the sleep. *)
Theorem idle_backoff (fuel : nat) s consumeFn st l cf w1 w2 :
  config s = Some l →
  heap st !! l = Some cf →
  ctx_Done (world st) = (false, w1) →
  sqs_ReceiveMessage w1 (sqs s) (request_of cf) = (inl [], w2) →
  let idle := [EvDone false;
               EvReceiveMessage (sqs s) (request_of cf) (inl []);
               EvSleep 1000000000] in
  iteration s consumeFn st = (Val Continue, after st w2 idle) ∧
  handleMessages (S fuel) s consumeFn st =
    handleMessages fuel s consumeFn (after st w2 idle).
Proof.
  intros Hs Hst Hdone Hrecv idle.
  pose proof (iteration_empty s consumeFn st l cf w1 w2 _ Hs Hst Hdone Hrecv eq_refl)
    as Hit.
  split; [exact Hit |].
  simpl. unfold mbind at 1, M_bind at 1. by rewrite Hit.
Qed.

(** C1. Under [DeleteStrategyOnSuccess], a pass that received
    [messages] calls the handler on each of them in receipt order and
    then hands [deleteSqsMessages] exactly the messages for which the
    handler returned nil, in receipt order; no [DeleteMessageBatch]
    call is made before or during the dispatch, the calls made after
    it carry entries of those messages only, in order, and all of them
    when the acknowledgment returns nil. *)
Theorem onsuccess_acknowledges_successes s consumeFn st l cf w1 w2
    (messages : list Message) :
  config s = Some l →
  heap st !! l = Some cf →
  ctx_Done (world st) = (false, w1) →
  sqs_ReceiveMessage w1 (sqs s) (request_of cf) = (inl messages, w2) →
  messages ≠ [] →
  Forall has_body messages →
  DeleteStrategy cf = DeleteStrategyOnSuccess →
  DeleteStrategyOnSuccess ≠ DeleteStrategyImmediate →
  ∃ rets w3 r w4 acks,
    let dispatched := poll s cf (inl messages) ++ handler_events messages rets in
    let S := successes messages rets in
    consume_args dispatched = handler_args <$> messages ∧
    consume_rets dispatched = rets ∧
    delete_calls dispatched = [] ∧
    deleteSqsMessages s S (after st w3 dispatched) =
      (r, after st w4 (dispatched ++ acks)) ∧
    iteration s consumeFn st = (next_of r, after st w4 (dispatched ++ acks)) ∧
    concat (delete_calls acks) `prefix_of` entries_of S ∧
    (r = Val None → concat (delete_calls acks) = entries_of S).
Proof.
  intros Hs Hst Hdone Hrecv Hne Hbody Hon Hdiff.
  pose proof (iteration_batch s consumeFn st l cf w1 w2 _ Hs Hst Hdone Hrecv
                messages eq_refl Hne) as Hit.
  rewrite bool_decide_false in Hit by congruence. simpl in Hit.
  destruct (range_messages_run s l cf consumeFn messages Hs []
              (after st w2 (poll s cf (inl messages))) Hst)
    as (hs & rd & w3 & Hrange & Hshape).
  rewrite Hrange, after_after in Hit.
  destruct (HandleRun_events _ _ _ _ _ Hshape) as (Hhs & _ & Hval & Hall).
  destruct (Hall Hbody) as [td ->].
  destruct (Hval _ eq_refl) as [Hlen Htd]. simpl in Htd.
  rewrite bool_decide_true in Htd by done. subst td.
  set (rets := consume_rets hs) in *.
  destruct (deleteSqsMessages_run s l cf (successes messages rets)
              (after st w3 (poll s cf (inl messages) ++ hs)) Hs Hst)
    as (chunks & acks & r & w4 & Hchunk & Hdel & Hrun).
  rewrite after_after in Hdel.
  destruct (chunk_10 (successes messages rets)) as (chunks' & Hchunk' & Hcat & _).
  assert (chunks' = chunks) as -> by congruence.
  destruct (DeleteRun_calls _ _ _ _ _ Hrun) as (_ & Hpre & Hok).
  destruct (handler_events_rets messages rets Hlen) as [Hrets Hargs].
  exists rets, w3, r, w4, acks. simpl. rewrite <- Hhs.
  split; [by rewrite Hhs, Hargs |].
  split; [by rewrite Hhs, Hrets |].
  split; [by rewrite Hhs, handler_events_no_delete |].
  split; [done |].
  split; [by rewrite Hit, Hdel |].
  rewrite <- Hcat, <- entries_of_concat. split.
  - destruct Hpre as [rest ->]. rewrite concat_app. by eexists.
  - intros ->. by rewrite (Hok eq_refl).
Qed.

(** Under [DeleteStrategyImmediate], at each call of the handler in a
    pass that received [messages], the [DeleteMessageBatch] calls made
    so far carry the entries of all the received messages. *)
Lemma immediate_acknowledged_at_calls s consumeFn st l cf w1 w2
    (messages : list Message) :
  config s = Some l →
  heap st !! l = Some cf →
  ctx_Done (world st) = (false, w1) →
  sqs_ReceiveMessage w1 (sqs s) (request_of cf) = (inl messages, w2) →
  messages ≠ [] →
  DeleteStrategy cf = DeleteStrategyImmediate →
  ∃ r w tr,
    iteration s consumeFn st = (r, after st w tr) ∧
    (∀ before ev later,
       tr = before ++ ev :: later → is_consume ev = true →
       concat (delete_calls before) = entries_of messages) ∧
    (r = Val Continue → consume_args tr = handler_args <$> messages).
Proof.
  intros Hs Hst Hdone Hrecv Hne Him.
  pose proof (iteration_batch s consumeFn st l cf w1 w2 _ Hs Hst Hdone Hrecv
                messages eq_refl Hne) as Hit.
  rewrite bool_decide_true in Hit by done. simpl in Hit.
  set (polled := poll s cf (inl messages)) in *.
  assert (Forall (λ ev, ¬ is_consume ev = true) polled) as Hpolled
    by (by repeat constructor).
  destruct (deleteSqsMessages_run s l cf messages (after st w2 polled) Hs Hst)
    as (chunks & pre & r1 & w3 & Hchunk & Hdel & Hrun).
  rewrite after_after in Hdel. rewrite Hdel in Hit.
  destruct (chunk_10 messages) as (chunks' & Hchunk' & Hcat & _).
  assert (chunks' = chunks) as -> by congruence.
  destruct (DeleteRun_calls _ _ _ _ _ Hrun) as (Hpre & _ & Hok).
  destruct (deletes_no_consume pre Hpre) as [Hpre_nc Hpre_args].
  assert (∀ r, r1 ≠ Val None →
            iteration s consumeFn st = (r, after st w3 (polled ++ pre)) →
            ∃ r w tr,
              iteration s consumeFn st = (r, after st w tr) ∧
              (∀ before ev later,
                 tr = before ++ ev :: later → is_consume ev = true →
                 concat (delete_calls before) = entries_of messages) ∧
              (r = Val Continue → consume_args tr = handler_args <$> messages))
    as Hstopped.
  { intros r Hr1 Hr. exists r, w3, (polled ++ pre). split; [done |]. split.
    - intros before ev later Heq Hev.
      assert (Forall (λ ev, ¬ is_consume ev = true) (polled ++ pre)) as Hnc
        by (by apply Forall_app).
      rewrite Heq in Hnc. apply Forall_app in Hnc as [_ Hnc].
      by apply Forall_cons in Hnc as [? _].
    - intros ->. rewrite Hit in Hr.
      destruct r1 as [[e |] | why]; simpl in Hr; [discriminate | done | discriminate]. }
  destruct r1 as [[e |] | why];
    [eapply Hstopped; [done | by rewrite Hit] | | eapply Hstopped; [done | by rewrite Hit]].
  clear Hstopped.
  specialize (Hok eq_refl).
  destruct (range_messages_run s l cf consumeFn messages Hs []
              (after st w3 (polled ++ pre)) Hst)
    as (hs & rd & w4 & Hrange & Hshape).
  rewrite after_after in Hrange. rewrite Hrange in Hit.
  destruct (HandleRun_events _ _ _ _ _ Hshape) as (Hhs & _ & Hval & _).
  assert (delete_calls hs = []) as Hhs_del
    by (by rewrite Hhs, handler_events_no_delete).
  assert (concat (delete_calls (polled ++ pre)) = entries_of messages) as Hacked.
  { rewrite delete_calls_app, Hok. simpl. by rewrite entries_of_concat, Hcat. }
  assert (∀ post, Forall (λ ev, is_delete ev = true) post →
            ∀ before ev later,
              (polled ++ pre) ++ hs ++ post = before ++ ev :: later →
              is_consume ev = true →
              concat (delete_calls before) = entries_of messages) as Hpoint.
  { intros post Hpost before ev later Heq Hev.
    destruct (app_split_right (λ ev, is_consume ev = true) _ _ _ _ _ Heq)
      as (k & -> & Heq'); [by apply Forall_app | done |].
    destruct (app_split_left (λ ev, is_consume ev = true) _ _ _ _ _ Heq')
      as (k' & Hk & _); [by apply deletes_no_consume | done |].
    rewrite Hk, delete_calls_app in Hhs_del.
    apply app_eq_nil in Hhs_del as [Hk_del _].
    by rewrite delete_calls_app, Hk_del, app_nil_r. }
  destruct rd as [td | why].
  - destruct (deleteSqsMessages_run s l cf td
                (after st w4 ((polled ++ pre) ++ hs)) Hs Hst)
      as (chunks2 & post & r3 & w5 & _ & Hdel2 & Hrun2).
    rewrite after_after in Hdel2. rewrite Hdel2 in Hit. unfold finish in Hit.
    simpl in Hit.
    destruct (DeleteRun_calls _ _ _ _ _ Hrun2) as (Hpost & _ & _).
    exists (next_of r3), w5, (((polled ++ pre) ++ hs) ++ post).
    split; [done |]. split.
    + intros before ev later Heq. rewrite <- app_assoc in Heq.
      by eapply Hpoint.
    + intros _. destruct (Hval _ eq_refl) as [Hlen _].
      rewrite !consume_args_app, Hpre_args.
      destruct (deletes_no_consume post Hpost) as [_ ->].
      rewrite Hhs. destruct (handler_events_rets messages _ Hlen) as [_ ->].
      by rewrite app_nil_r.
  - exists (Stop why), w4, ((polled ++ pre) ++ hs).
    split; [done |]. split; [| done].
    intros before ev later Heq. eapply (Hpoint []); [constructor |].
    by rewrite app_nil_r.
Qed.

Lemma after_inj st (w w' : W) (tr tr' : list Event) :
  after st w tr = after st w' tr' → w = w' ∧ tr = tr'.
Proof.
  unfold after. intros Heq. injection Heq as -> Htr.
  by apply app_inv_head in Htr.
Qed.

(** C2. Under [DeleteStrategyImmediate], a pass that received
    [messages] first runs [deleteSqsMessages] on the whole batch, right
    after the receive and before any call of the handler.  When that
    acknowledgment does not return nil the pass ends there, with its
    error or its panic, and the handler is never called; when it
    returns nil its calls carried, in order, the entries of all the
    received messages, and the handler is then called on every message
    that has a body, in receipt order, whatever it returns.  So at each
    call of the handler the [DeleteMessageBatch] calls already made
    carry the entries of all the received messages. *)
Theorem immediate_acknowledges_first s consumeFn st l cf w1 w2
    (messages : list Message) :
  config s = Some l →
  heap st !! l = Some cf →
  ctx_Done (world st) = (false, w1) →
  sqs_ReceiveMessage w1 (sqs s) (request_of cf) = (inl messages, w2) →
  messages ≠ [] →
  DeleteStrategy cf = DeleteStrategyImmediate →
  let pl := poll s cf (inl messages) in
  ∃ r1 w3 pre r w rest,
    deleteSqsMessages s messages (after st w2 pl) = (r1, after st w3 (pl ++ pre)) ∧
    iteration s consumeFn st = (r, after st w (pl ++ pre ++ rest)) ∧
    consume_args (pl ++ pre) = [] ∧
    (r1 = Val None → concat (delete_calls pre) = entries_of messages) ∧
    (r1 ≠ Val None → rest = [] ∧ r = next_of r1) ∧
    (r1 = Val None → Forall has_body messages →
     consume_args rest = handler_args <$> messages) ∧
    (∀ before ev later,
       pl ++ pre ++ rest = before ++ ev :: later → is_consume ev = true →
       concat (delete_calls before) = entries_of messages) ∧
    (r = Val Continue →
     consume_args (pl ++ pre ++ rest) = handler_args <$> messages).
Proof.
  intros Hs Hst Hdone Hrecv Hne Him pl.
  destruct (immediate_acknowledged_at_calls s consumeFn st l cf w1 w2 messages
              Hs Hst Hdone Hrecv Hne Him) as (r0 & w0 & tr0 & Hrun0 & Hpoint & Hcont).
  assert (∀ r w tr, iteration s consumeFn st = (r, after st w tr) →
                    r = r0 ∧ tr = tr0) as Hlink.
  { intros r w tr Hrun. rewrite Hrun0 in Hrun.
    assert (r = r0) as -> by congruence.
    assert (after st w0 tr0 = after st w tr) as Hafter by congruence.
    by destruct (after_inj _ _ _ _ _ Hafter) as [_ ->]. }
  pose proof (iteration_batch s consumeFn st l cf w1 w2 _ Hs Hst Hdone Hrecv
                messages eq_refl Hne) as Hit.
  rewrite bool_decide_true in Hit by done. simpl in Hit. fold pl in Hit.
  destruct (deleteSqsMessages_run s l cf messages (after st w2 pl) Hs Hst)
    as (chunks & pre & r1 & w3 & Hchunk & Hdel & Hrun).
  rewrite after_after in Hdel. rewrite Hdel in Hit.
  destruct (chunk_10 messages) as (chunks' & Hchunk' & Hcat & _).
  assert (chunks' = chunks) as -> by congruence.
  destruct (DeleteRun_calls _ _ _ _ _ Hrun) as (Hpre & _ & Hok).
  destruct (deletes_no_consume pre Hpre) as [_ Hpre_args].
  assert (consume_args (pl ++ pre) = []) as Hquiet
    by (by rewrite consume_args_app, Hpre_args).
  assert (r1 = Val None → concat (delete_calls pre) = entries_of messages) as Hall.
  { intros Hr1. by rewrite (Hok Hr1), entries_of_concat, Hcat. }
  assert (∀ r w rest,
            iteration s consumeFn st = (r, after st w (pl ++ pre ++ rest)) →
            (∀ before ev later,
               pl ++ pre ++ rest = before ++ ev :: later → is_consume ev = true →
               concat (delete_calls before) = entries_of messages) ∧
            (r = Val Continue →
             consume_args (pl ++ pre ++ rest) = handler_args <$> messages)) as Hold.
  { intros r w rest Hrun'. destruct (Hlink _ _ _ Hrun') as [-> Htr].
    rewrite Htr. by split. }
  assert (r1 ≠ Val None →
          iteration s consumeFn st = (next_of r1, after st w3 (pl ++ pre ++ []))) as Hstop.
  { intros Hr1. rewrite app_nil_r, Hit.
    by destruct r1 as [[e |] | why]. }
  assert (r1 = Val None ∨ r1 ≠ Val None) as [Hr1 | Hr1]
    by (destruct r1 as [[e |] | why]; [by right | by left | by right]).
  2: { exists r1, w3, pre, (next_of r1), w3, [].
       destruct (Hold _ _ _ (Hstop Hr1)) as [Hp Hc].
       split; [done |]. split; [by apply Hstop |]. split; [done |].
       split; [done |]. split; [done |]. split; [done |]. by split. }
  subst r1. clear Hstop.
  destruct (range_messages_run s l cf consumeFn messages Hs []
              (after st w3 (pl ++ pre)) Hst)
    as (hs & rd & w4 & Hrange & Hshape).
  rewrite after_after in Hrange. rewrite Hrange in Hit.
  destruct (HandleRun_events _ _ _ _ _ Hshape) as (Hhs & _ & Hval & Hbodies).
  destruct rd as [td | why].
  - destruct (deleteSqsMessages_run s l cf td
                (after st w4 ((pl ++ pre) ++ hs)) Hs Hst)
      as (chunks2 & post & r3 & w5 & _ & Hdel2 & Hrun2).
    rewrite after_after in Hdel2. rewrite Hdel2 in Hit. unfold finish in Hit.
    simpl in Hit.
    destruct (DeleteRun_calls _ _ _ _ _ Hrun2) as (Hpost & _ & _).
    destruct (deletes_no_consume post Hpost) as [_ Hpost_args].
    assert (iteration s consumeFn st =
              (next_of r3, after st w5 (pl ++ pre ++ hs ++ post))) as Hit'.
    { replace (pl ++ pre ++ hs ++ post) with (((pl ++ pre) ++ hs) ++ post)
        by (by rewrite <- !app_assoc).
      exact Hit. }
    destruct (Hold _ _ _ Hit') as [Hp Hc].
    exists (Val None), w3, pre, (next_of r3), w5, (hs ++ post).
    split; [done |]. split; [done |]. split; [done |].
    split; [done |]. split; [done |]. split; [| by split].
    intros _ _. destruct (Hval _ eq_refl) as [Hlen _].
    rewrite consume_args_app, Hpost_args, app_nil_r, Hhs.
    by destruct (handler_events_rets messages _ Hlen) as [_ ->].
  - assert (iteration s consumeFn st =
              (Stop why, after st w4 (pl ++ pre ++ hs))) as Hit'.
    { replace (pl ++ pre ++ hs) with ((pl ++ pre) ++ hs)
        by (by rewrite <- !app_assoc).
      exact Hit. }
    destruct (Hold _ _ _ Hit') as [Hp Hc].
    exists (Val None), w3, pre, (Stop why), w4, hs.
    split; [done |]. split; [done |]. split; [done |].
    split; [done |]. split; [done |]. split; [| by split].
    intros _ Hbody. by destruct (Hbodies Hbody).
Qed.

(** C5. In a pass that received [messages] and reached the dispatch
    loop, whatever the handler returns for each message: it is called
    on every message in receipt order, each error is logged right
    after the call that returned it, the loop runs to its end, and the
    pass then ends as the acknowledgment of [toDelete] does, where
    [toDelete] holds, under [DeleteStrategyOnSuccess], the messages
    the handler returned nil for.  When the handler failed on every
    message the pass does not return and the worker loops on. *)
Theorem handler_errors_are_not_fatal s consumeFn st l cf w1 w2
    (messages : list Message) st2 :
  config s = Some l →
  heap st !! l = Some cf →
  ctx_Done (world st) = (false, w1) →
  sqs_ReceiveMessage w1 (sqs s) (request_of cf) = (inl messages, w2) →
  messages ≠ [] →
  Forall has_body messages →
  (if bool_decide (DeleteStrategy cf = DeleteStrategyImmediate)
   then deleteSqsMessages s messages (after st w2 (poll s cf (inl messages)))
   else (Val None, after st w2 (poll s cf (inl messages)))) = (Val None, st2) →
  ∃ rets w3,
    let hs := handler_events messages rets in
    let toDelete :=
      if bool_decide (DeleteStrategy cf = DeleteStrategyOnSuccess)
      then successes messages rets else [] in
    length rets = length messages ∧
    consume_args hs = handler_args <$> messages ∧
    consume_rets hs = rets ∧
    range_messages s consumeFn messages [] st2 = (Val toDelete, after st2 w3 hs) ∧
    iteration s consumeFn st = finish (deleteSqsMessages s toDelete (after st2 w3 hs)) ∧
    (Forall (λ ret, ret ≠ None) rets →
     iteration s consumeFn st = (Val Continue, after st2 w3 hs)).
Proof.
  intros Hs Hst Hdone Hrecv Hne Hbody Hpre.
  pose proof (iteration_batch s consumeFn st l cf w1 w2 _ Hs Hst Hdone Hrecv
                messages eq_refl Hne) as Hit.
  simpl in Hit. rewrite Hpre in Hit.
  assert (heap st2 !! l = Some cf) as Hst2.
  { case_bool_decide.
    - destruct (deleteSqsMessages_run s l cf messages
                  (after st w2 (poll s cf (inl messages))) Hs Hst)
        as (_ & pre & r1 & w3 & _ & Hdel & _).
      rewrite Hdel in Hpre. by injection Hpre as _ <-.
    - by injection Hpre as <-. }
  destruct (range_messages_run s l cf consumeFn messages Hs [] st2 Hst2)
    as (hs & rd & w3 & Hrange & Hshape).
  destruct (HandleRun_events _ _ _ _ _ Hshape) as (Hhs & _ & Hval & Hall).
  destruct (Hall Hbody) as [td ->].
  destruct (Hval _ eq_refl) as [Hlen Htd]. simpl in Htd. subst td.
  destruct (handler_events_rets messages _ Hlen) as [Hrets Hargs].
  exists (consume_rets hs), w3. simpl. rewrite <- Hhs.
  split; [done |].
  split; [by rewrite Hhs, Hargs |].
  split; [by rewrite Hhs, Hrets |].
  split; [done |]. rewrite Hit, Hrange. split; [done |].
  intros Hfailed. rewrite successes_all_failed by done.
  by destruct (bool_decide (DeleteStrategy cf = DeleteStrategyOnSuccess)).
Qed.

(** *** The whole loop *)

Lemma dispatch_Ends s consumeFn l cf (messages : list Message) st :
  config s = Some l → heap st !! l = Some cf →
  ∃ r w tr,
    (let '(rd, st3) := range_messages s consumeFn messages [] st in
     match rd with
     | Val toDelete => finish (deleteSqsMessages s toDelete st3)
     | Stop why => (Stop why, st3)
     end) = (r, after st w tr) ∧
    Ends tr (returned r).
Proof.
  intros Hs Hst.
  destruct (range_messages_run s l cf consumeFn messages Hs [] st Hst)
    as (hs & rd & w3 & -> & Hshape).
  destruct (HandleRun_events _ _ _ _ _ Hshape) as (Hhs & _).
  assert (Forall (λ ev, returns ev = None) hs) as Hquiet.
  { rewrite Hhs. eapply Forall_impl; [apply handler_events_quiet |].
    by intros ? [? _]. }
  destruct rd as [td | why].
  - destruct (deleteSqsMessages_run s l cf td (after st w3 hs) Hs Hst)
      as (chunks & post & r3 & w4 & _ & Hdel & Hrun).
    rewrite after_after in Hdel. rewrite Hdel. unfold finish. simpl.
    exists (next_of r3), w4, (hs ++ post). split; [done |].
    apply Ends_app; [done |]. by eapply DeleteRun_Ends.
  - by exists (Stop why), w3, hs.
Qed.

Lemma iteration_Ends s consumeFn st :
  ∃ r w tr,
    iteration s consumeFn st = (r, after st w tr) ∧ Ends tr (returned r).
Proof.
  destruct (ctx_Done (world st)) as [[|] w1] eqn:Hdone.
  { eexists _, _, _. split; [by apply iteration_cancelled |].
    by exists [], (EvDone true). }
  destruct (config_cases s st) as [(l & cf & Hs & Hst) | Hno].
  2: { eexists _, _, _. split; [by apply iteration_noconf |].
       by repeat constructor. }
  destruct (sqs_ReceiveMessage w1 (sqs s) (request_of cf))
    as [[messages | e] w2] eqn:Hrecv.
  2: { eexists _, _, _. split; [by eapply iteration_receive_error |].
       by exists [EvDone false], (EvReceiveMessage (sqs s) (request_of cf) (inr e));
         repeat constructor. }
  destruct (decide (messages = [])) as [-> | Hne].
  { eexists _, _, _. split; [by eapply iteration_empty |].
    by repeat constructor. }
  rewrite (iteration_batch s consumeFn st l cf w1 w2 _ Hs Hst Hdone Hrecv
             messages eq_refl Hne). simpl.
  set (polled := poll s cf (inl messages)).
  assert (Forall (λ ev, returns ev = None) polled) as Hpolled
    by (by repeat constructor).
  assert (∃ r1 w3 pre,
            (if bool_decide (DeleteStrategy cf = DeleteStrategyImmediate)
             then deleteSqsMessages s messages (after st w2 polled)
             else (Val None, after st w2 polled)) = (r1, after st w3 (polled ++ pre)) ∧
            Ends pre (returned (next_of r1))) as (r1 & w3 & pre & -> & Hpre).
  { case_bool_decide.
    - destruct (deleteSqsMessages_run s l cf messages (after st w2 polled) Hs Hst)
        as (chunks & pre & r1 & w3 & _ & Hdel & Hrun).
      rewrite after_after in Hdel. exists r1, w3, pre. split; [done |].
      by eapply DeleteRun_Ends.
    - exists (Val None), w2, []. rewrite app_nil_r. split; [done | constructor]. }
  destruct r1 as [[e |] | why].
  - exists (Val (Return (Some e))), w3, (polled ++ pre). split; [done |].
    by apply Ends_app.
  - destruct (dispatch_Ends s consumeFn l cf messages
                (after st w3 (polled ++ pre)) Hs Hst)
      as (r & w & tr & Hrun & Hends).
    rewrite after_after in Hrun. exists r, w, ((polled ++ pre) ++ tr).
    split; [done |]. apply Ends_app; [| done]. by apply Forall_app.
  - exists (Stop why), w3, (polled ++ pre). split; [done |].
    by apply Ends_app.
Qed.

Lemma handleMessages_Ends (fuel : nat) s consumeFn :
  ∀ st, ∃ r w tr,
    handleMessages fuel s consumeFn st = (r, after st w tr) ∧
    Ends tr (returned r).
Proof.
  induction fuel as [| fuel IH]; intros st.
  - exists (Val Continue), (world st), []. rewrite after_nil.
    split; [done | constructor].
  - destruct (iteration_Ends s consumeFn st) as (r & w & tr & Hit & Hends).
    simpl. unfold mbind at 1, M_bind at 1. rewrite Hit.
    destruct r as [[x |] | why].
    + by exists (Val (Return x)), w, tr.
    + destruct (IH (after st w tr)) as (r' & w' & tr' & Hrest & Hends').
      rewrite after_after in Hrest. exists r', w', (tr ++ tr').
      split; [done |]. by apply Ends_app.
    + by exists (Stop why), w, tr.
Qed.

(** C4. In every run of [handleMessages]: when it returns nil its last
    call is the cancellation check, which found the context done; when
    it returns an error its last call is a [ReceiveMessage] or a
    [DeleteMessageBatch] that answered with that error; a transport
    call that answers with an error is the last call of the run, which
    returns that error; and a cancellation check that finds the
    context done is the last call of the run, which returns nil. *)
Theorem worker_returns (fuel : nat) s consumeFn st :
  ∃ r w tr,
    handleMessages fuel s consumeFn st = (r, after st w tr) ∧
    (r = Val (Return None) → ∃ before, tr = before ++ [EvDone true]) ∧
    (∀ e, r = Val (Return (Some e)) →
       ∃ before ev, tr = before ++ [ev] ∧ transport_error ev = Some e) ∧
    (∀ before ev later e,
       tr = before ++ ev :: later → transport_error ev = Some e →
       later = [] ∧ r = Val (Return (Some e))) ∧
    (∀ before later,
       tr = before ++ EvDone true :: later →
       later = [] ∧ r = Val (Return None)).
Proof.
  destruct (handleMessages_Ends fuel s consumeFn st) as (r & w & tr & Hrun & Hends).
  exists r, w, tr. split; [done |].
  assert (∀ x, returned r = Some x → r = Val (Return x)) as Hret.
  { intros x. destruct r as [[y |] | why]; simpl; congruence. }
  split; [| split; [| split]].
  - intros ->. simpl in Hends. destruct Hends as (pre & ev & -> & _ & Hev).
    apply returns_cancelled in Hev as ->. by exists pre.
  - intros e ->. simpl in Hends. destruct Hends as (pre & ev & -> & _ & Hev).
    apply returns_transport_error in Hev. by exists pre, ev.
  - intros before ev later e Heq Hev. apply returns_transport_error in Hev.
    destruct (Ends_last _ _ _ _ _ _ Hends Heq Hev) as [-> Hr]. auto.
  - intros before later Heq.
    destruct (Ends_last _ _ _ _ _ None Hends Heq eq_refl) as [-> Hr]. auto.
Qed.

End Worker.

(** ** Construction *)

Section Construction.
Context `{Decl : Declarations} {W : Type} `{Out : !Outside W}.
Implicit Types (st : State W) (cf : SQSConf).

Lemma put_lookup st l c : heap (put st l c) !! l = Some c.
Proof. apply lookup_insert_eq. Qed.

Lemma put_put st l c c' : put (put st l c) l c' = put st l c'.
Proof. unfold put. simpl. by rewrite insert_insert_eq. Qed.

Lemma put_id st l cf : heap st !! l = Some cf → put st l cf = st.
Proof. intros Hst. destruct st. unfold put. simpl in *. by rewrite insert_id. Qed.

(** [if cond { conf.f = v }] on the object at [l]. *)
Lemma default_step (b : bool) (upd : SQSConf → SQSConf) st l cf :
  heap st !! l = Some cf →
  (if b then store (Some l) upd else λ st1, (Val (), st1)) st =
    (Val (), put st l (if b then upd cf else cf)).
Proof.
  intros Hst. destruct b.
  - unfold store. by rewrite Hst.
  - by rewrite put_id.
Qed.

Lemma NewSQSConsumer_ok st l cf awsCfg :
  aws_ready (world st) awsCfg →
  heap st !! l = Some cf →
  Queue cf ≠ "" →
  NewSQSConsumer (Some l) st =
    (Val (Some {| config := Some l; sqs := {| client_config := awsCfg |} |}, None),
     put st l (defaulted cf)).
Proof.
  intros (Hkey & Hsecret & Hregion & Hload) Hst Hqueue.
  unfold NewSQSConsumer. run.
  rewrite !bool_decide_false by done. simpl. rewrite Hload.
  rewrite Hst. rewrite bool_decide_false by done. rewrite Hst.
  rewrite (default_step _ _ st l cf Hst).
  set (c1 := if bool_decide (String.length (DeleteStrategy cf) = 0%nat)
             then set_DeleteStrategy DeleteStrategyImmediate cf else cf).
  rewrite put_lookup.
  rewrite (default_step _ _ _ l c1 (put_lookup _ _ _)), put_put.
  set (c2 := if bool_decide (Concurrency c1 = 0%Z)
             then set_Concurrency DefaultConcurrency c1 else c1).
  rewrite put_lookup.
  rewrite (default_step _ _ _ l c2 (put_lookup _ _ _)), put_put.
  set (c3 := if bool_decide (WaitTimeSeconds c2 = 0%Z)
             then set_WaitTimeSeconds DefaultWaitTimeSeconds c2 else c2).
  rewrite put_lookup.
  rewrite (default_step _ _ _ l c3 (put_lookup _ _ _)), put_put.
  done.
Qed.

Lemma length_zero_empty (ds : string) : String.length ds = 0%nat ↔ ds = "".
Proof. by destruct ds. Qed.

Lemma defaulted_fields cf :
  Queue (defaulted cf) = Queue cf ∧
  VisibilityTimeout (defaulted cf) = VisibilityTimeout cf ∧
  DeleteStrategy (defaulted cf) =
    (if decide (DeleteStrategy cf = "") then DeleteStrategyImmediate
     else DeleteStrategy cf) ∧
  Concurrency (defaulted cf) =
    (if decide (Concurrency cf = 0%Z) then DefaultConcurrency
     else Concurrency cf) ∧
  WaitTimeSeconds (defaulted cf) =
    (if decide (WaitTimeSeconds cf = 0%Z) then DefaultWaitTimeSeconds
     else WaitTimeSeconds cf) ∧
  MaxNumberOfMessages (defaulted cf) =
    (if decide (MaxNumberOfMessages cf = 0%Z) then DefaultMaxNumberOfMessages
     else MaxNumberOfMessages cf).
Proof.
  unfold defaulted.
  destruct (decide (DeleteStrategy cf = "")) as [Hds | Hds].
  - rewrite (bool_decide_true (String.length _ = 0%nat))
      by (by apply length_zero_empty).
    repeat case_bool_decide; repeat case_decide; simpl in *; done.
  - rewrite (bool_decide_false (String.length _ = 0%nat))
      by (by rewrite length_zero_empty).
    repeat case_bool_decide; repeat case_decide; simpl in *; done.
Qed.

(** C8. When the environment is ready, the configuration object is
    there and its queue is set, construction succeeds and leaves, in
    the configuration of the pool: the default concurrency, wait time
    and maximum number of messages where the field was 0, the strategy
    [DeleteStrategyImmediate] where it was unset (empty), and the
    supplied value in each field that was not zero. *)
Theorem defaults_applied st l cf awsCfg :
  aws_ready (world st) awsCfg →
  heap st !! l = Some cf →
  Queue cf ≠ "" →
  ∃ pool st' cf',
    NewSQSConsumer (Some l) st = (Val (Some pool, None), st') ∧
    config pool = Some l ∧
    heap st' !! l = Some cf' ∧
    Concurrency cf' =
      (if decide (Concurrency cf = 0%Z) then DefaultConcurrency
       else Concurrency cf) ∧
    WaitTimeSeconds cf' =
      (if decide (WaitTimeSeconds cf = 0%Z) then DefaultWaitTimeSeconds
       else WaitTimeSeconds cf) ∧
    MaxNumberOfMessages cf' =
      (if decide (MaxNumberOfMessages cf = 0%Z) then DefaultMaxNumberOfMessages
       else MaxNumberOfMessages cf) ∧
    DeleteStrategy cf' =
      (if decide (DeleteStrategy cf = "") then DeleteStrategyImmediate
       else DeleteStrategy cf).
Proof.
  intros Hready Hst Hqueue.
  destruct (defaulted_fields cf) as (_ & _ & Hds & Hc & Hw & Hm).
  eexists _, _, (defaulted cf).
  split; [by apply NewSQSConsumer_ok |].
  split; [done |]. split; [apply put_lookup |]. done.
Qed.

(** C6, as the code has it. Construction does not depend on the
    delete strategy to succeed: when the environment is ready, the
    configuration object is there and its queue is set, it succeeds
    for every value of the field; an unset (empty) strategy becomes
    [DeleteStrategyImmediate], and every other value, one of the two
    constants or not, is kept as it is. *)
Theorem delete_strategy_defaulting st l cf awsCfg :
  aws_ready (world st) awsCfg →
  heap st !! l = Some cf →
  Queue cf ≠ "" →
  ∃ pool st' cf',
    NewSQSConsumer (Some l) st = (Val (Some pool, None), st') ∧
    heap st' !! l = Some cf' ∧
    (DeleteStrategy cf = "" → DeleteStrategy cf' = DeleteStrategyImmediate) ∧
    (DeleteStrategy cf ≠ "" → DeleteStrategy cf' = DeleteStrategy cf).
Proof.
  intros Hready Hst Hqueue.
  destruct (defaulted_fields cf) as (_ & _ & Hds & _).
  eexists _, _, (defaulted cf).
  split; [by apply NewSQSConsumer_ok |].
  split; [apply put_lookup |].
  rewrite Hds. split; intros ?; by case_decide.
Qed.

(** C10. A successful construction writes the defaults into the
    caller's configuration object: the pool holds the pointer it was
    given, the object at that address is the defaulted one and its
    [Queue] and [VisibilityTimeout] are as supplied, every other
    object is untouched, the pool's requests read the defaulted
    object, and what the caller writes to the object afterwards is
    what the pool reads. *)
Theorem construction_in_place st l cf awsCfg :
  aws_ready (world st) awsCfg →
  heap st !! l = Some cf →
  Queue cf ≠ "" →
  ∃ pool st' cf',
    NewSQSConsumer (Some l) st = (Val (Some pool, None), st') ∧
    config pool = Some l ∧
    st' = put st l cf' ∧
    heap st' !! l = Some cf' ∧
    cf' = defaulted cf ∧
    Queue cf' = Queue cf ∧
    VisibilityTimeout cf' = VisibilityTimeout cf ∧
    (∀ l', l' ≠ l → heap st' !! l' = heap st !! l') ∧
    pullMessagesRequest pool st' = (Val (request_of cf'), st') ∧
    (∀ c, load (config pool) (put st' l c) = (Val c, put st' l c)).
Proof.
  intros Hready Hst Hqueue.
  destruct (defaulted_fields cf) as (Hq & Hv & _).
  eexists _, _, (defaulted cf).
  split; [by apply NewSQSConsumer_ok |]. simpl.
  split; [done |]. split; [done |]. split; [apply put_lookup |].
  split; [done |]. split; [done |]. split; [done |].
  split; [intros l' Hl'; by apply lookup_insert_ne |].
  split.
  - apply (pullMessagesRequest_valid _ l); [done | apply lookup_insert_eq].
  - intros c. unfold load. simpl. by rewrite lookup_insert_eq.
Qed.

End Construction.

(** ** The functions on concrete inputs *)

Section Runs.
Existing Instance spec_declarations.

Example chunk_three_by_two :
  chunk three 2 = Val [[message "A" "a"; message "B" "b"]; [message "C" "c"]].
Proof. reflexivity. Qed.

Example chunk_zero_panics : chunk three 0 = Stop DivideByZero.
Proof. reflexivity. Qed.

(** The scenario of the specification: one worker, strategy OnSuccess,
    the messages A, B, C, and a handler that fails on B only.  The
    handler is called on A, B, C in that order and one batch is
    deleted, holding A and C. *)
Example scenario_on_success :
  let run := handleMessages 2 test_sqs (fails_on ["b"])
               (test_state (test_conf "OnSuccess") (test_script [inl three] [])) in
  run.1 = Val Continue ∧
  consume_args (trace run.2) = handler_args <$> three ∧
  consume_rets (trace run.2) = [None; Some "handler failed"; None] ∧
  delete_calls (trace run.2) = [entries_of [message "A" "a"; message "C" "c"]].
Proof. vm_compute. done. Qed.

Example scenario_immediate :
  let run := handleMessages 1 test_sqs (fails_on ["b"])
               (test_state (test_conf "Immediate") (test_script [inl three] [])) in
  run.1 = Val Continue ∧
  delete_calls (trace run.2) = [entries_of three] ∧
  is_delete <$> trace run.2 = [false; false; true; false; false; false; false].
Proof. vm_compute. done. Qed.

(** A delete error ends the worker with that error. *)
Example scenario_delete_error :
  let run := handleMessages 5 test_sqs (fails_on [])
               (test_state (test_conf "OnSuccess")
                  (test_script [inl three] [Some "throttled"])) in
  run.1 = Val (Return (Some "throttled")).
Proof. vm_compute. done. Qed.

Lemma chunk_correct_witness :
  ∃ chunks,
    chunk three 2 = Val chunks ∧
    len chunks = ((len three + 2 - 1) `div` 2)%Z ∧
    (∀ i c, chunks !! i = Some c →
       if decide (S i < length chunks) then len c = 2%Z else (1 ≤ len c ≤ 2)%Z) ∧
    concat chunks = three ∧
    (three = [] → chunks = []).
Proof. apply (chunk_correct three 2). lia. Defined.

Lemma has_body_three : Forall has_body three.
Proof. repeat constructor; by eexists. Qed.

Lemma idle_backoff_witness :
  let cf := test_conf "OnSuccess" in
  let w := test_script [inl []] [] in
  let st := test_state cf w in
  let idle := [EvDone false;
               EvReceiveMessage (sqs test_sqs) (request_of cf) (inl []);
               EvSleep 1000000000] in
  iteration test_sqs (fails_on []) st = (Val Continue, after st (after_receive w cf) idle) ∧
  handleMessages 3 test_sqs (fails_on []) st =
    handleMessages 2 test_sqs (fails_on []) (after st (after_receive w cf) idle).
Proof.
  intros cf w st idle.
  apply (idle_backoff 2 test_sqs (fails_on []) st 0 cf (after_check w) (after_receive w cf));
    reflexivity.
Defined.

Lemma onsuccess_acknowledges_successes_witness :
  let cf := test_conf "OnSuccess" in
  let w := test_script [inl three] [] in
  let st := test_state cf w in
  ∃ rets w3 r w4 acks,
    let dispatched := poll test_sqs cf (inl three) ++ handler_events three rets in
    let S := successes three rets in
    consume_args dispatched = handler_args <$> three ∧
    consume_rets dispatched = rets ∧
    delete_calls dispatched = [] ∧
    deleteSqsMessages test_sqs S (after st w3 dispatched) =
      (r, after st w4 (dispatched ++ acks)) ∧
    iteration test_sqs (fails_on ["b"]) st =
      (next_of r, after st w4 (dispatched ++ acks)) ∧
    concat (delete_calls acks) `prefix_of` entries_of S ∧
    (r = Val None → concat (delete_calls acks) = entries_of S).
Proof.
  intros cf w st.
  apply (onsuccess_acknowledges_successes test_sqs (fails_on ["b"]) st 0 cf
           (after_check w) (after_receive w cf) three);
    try reflexivity; try discriminate.
  apply has_body_three.
Defined.

Lemma immediate_acknowledges_first_witness :
  let cf := test_conf "Immediate" in
  let w := test_script [inl three] [] in
  let st := test_state cf w in
  let pl := poll test_sqs cf (inl three) in
  ∃ r1 w3 pre r w' rest,
    deleteSqsMessages test_sqs three (after st (after_receive w cf) pl) =
      (r1, after st w3 (pl ++ pre)) ∧
    iteration test_sqs (fails_on ["b"]) st = (r, after st w' (pl ++ pre ++ rest)) ∧
    consume_args (pl ++ pre) = [] ∧
    (r1 = Val None → concat (delete_calls pre) = entries_of three) ∧
    (r1 ≠ Val None → rest = [] ∧ r = next_of r1) ∧
    (r1 = Val None → Forall has_body three →
     consume_args rest = handler_args <$> three) ∧
    (∀ before ev later,
       pl ++ pre ++ rest = before ++ ev :: later → is_consume ev = true →
       concat (delete_calls before) = entries_of three) ∧
    (r = Val Continue →
     consume_args (pl ++ pre ++ rest) = handler_args <$> three).
Proof.
  intros cf w st pl.
  apply (immediate_acknowledges_first test_sqs (fails_on ["b"]) st 0 cf
           (after_check w) (after_receive w cf) three);
    try reflexivity; discriminate.
Defined.

Lemma handler_errors_are_not_fatal_witness :
  let cf := test_conf "OnSuccess" in
  let w := test_script [inl three] [] in
  let st := test_state cf w in
  let st2 := after st (after_receive w cf) (poll test_sqs cf (inl three)) in
  ∃ rets w3,
    let hs := handler_events three rets in
    let toDelete :=
      if bool_decide (DeleteStrategy cf = DeleteStrategyOnSuccess)
      then successes three rets else [] in
    length rets = length three ∧
    consume_args hs = handler_args <$> three ∧
    consume_rets hs = rets ∧
    range_messages test_sqs (fails_on ["a"; "b"; "c"]) three [] st2 =
      (Val toDelete, after st2 w3 hs) ∧
    iteration test_sqs (fails_on ["a"; "b"; "c"]) st =
      finish (deleteSqsMessages test_sqs toDelete (after st2 w3 hs)) ∧
    (Forall (λ ret, ret ≠ None) rets →
     iteration test_sqs (fails_on ["a"; "b"; "c"]) st =
       (Val Continue, after st2 w3 hs)).
Proof.
  intros cf w st st2.
  apply (handler_errors_are_not_fatal test_sqs (fails_on ["a"; "b"; "c"]) st 0 cf
           (after_check w) (after_receive w cf) three st2);
    try reflexivity; try discriminate.
  apply has_body_three.
Defined.

Lemma aws_ready_test (rs : list (list Message + error)) :
  aws_ready (test_script rs []) (client_config test_client).
Proof. repeat split; try discriminate. Qed.

Lemma defaults_applied_witness :
  let st := test_state zero_conf (test_script [] []) in
  ∃ pool st' cf',
    NewSQSConsumer (Some 0) st = (Val (Some pool, None), st') ∧
    config pool = Some 0 ∧
    heap st' !! 0 = Some cf' ∧
    Concurrency cf' = DefaultConcurrency ∧
    WaitTimeSeconds cf' = DefaultWaitTimeSeconds ∧
    MaxNumberOfMessages cf' = DefaultMaxNumberOfMessages ∧
    DeleteStrategy cf' = DeleteStrategyImmediate.
Proof.
  intros st.
  apply (defaults_applied st 0 zero_conf (client_config test_client));
    [apply aws_ready_test | reflexivity | discriminate].
Defined.

Lemma delete_strategy_defaulting_witness :
  let cf := test_conf "foo" in
  let st := test_state cf (test_script [] []) in
  ∃ pool st' cf',
    NewSQSConsumer (Some 0) st = (Val (Some pool, None), st') ∧
    heap st' !! 0 = Some cf' ∧
    (DeleteStrategy cf = "" → DeleteStrategy cf' = DeleteStrategyImmediate) ∧
    (DeleteStrategy cf ≠ "" → DeleteStrategy cf' = DeleteStrategy cf).
Proof.
  intros cf st.
  apply (delete_strategy_defaulting st 0 cf (client_config test_client));
    [apply aws_ready_test | reflexivity | discriminate].
Defined.

Lemma construction_in_place_witness :
  let st := test_state zero_conf (test_script [] []) in
  ∃ pool st' cf',
    NewSQSConsumer (Some 0) st = (Val (Some pool, None), st') ∧
    config pool = Some 0 ∧
    st' = put st 0 cf' ∧
    heap st' !! 0 = Some cf' ∧
    cf' = defaulted zero_conf ∧
    Queue cf' = Queue zero_conf ∧
    VisibilityTimeout cf' = VisibilityTimeout zero_conf ∧
    (∀ l', l' ≠ 0 → heap st' !! l' = heap st !! l') ∧
    pullMessagesRequest pool st' = (Val (request_of cf'), st') ∧
    (∀ c, load (config pool) (put st' 0 c) = (Val c, put st' 0 c)).
Proof.
  intros st.
  apply (construction_in_place st 0 zero_conf (client_config test_client));
    [apply aws_ready_test | reflexivity | discriminate].
Defined.

(** C6, as the specification states it, fails: the strategy "foo" is
    neither of the two constants, construction succeeds, and the
    configuration still holds "foo", not [DeleteStrategyImmediate]. *)
Lemma unrecognized_strategy_is_kept :
  let st := test_state (test_conf "foo") (test_script [] []) in
  let built := NewSQSConsumer (Some 0) st in
  "foo" ≠ DeleteStrategyImmediate ∧
  "foo" ≠ DeleteStrategyOnSuccess ∧
  built.1 = Val (Some test_sqs, None) ∧
  DeleteStrategy <$> heap built.2 !! 0 = Some "foo" ∧
  DeleteStrategy <$> heap built.2 !! 0 ≠ Some DeleteStrategyImmediate.
Proof. vm_compute. repeat split; discriminate. Qed.

(** With a strategy that is neither constant the worker acknowledges
    nothing: no message is ever deleted. *)
Example unrecognized_strategy_never_deletes :
  let run := handleMessages 2 test_sqs (fails_on [])
               (test_state (test_conf "foo") (test_script [inl three] [])) in
  run.1 = Val Continue ∧
  consume_args (trace run.2) = handler_args <$> three ∧
  delete_calls (trace run.2) = [].
Proof. vm_compute. done. Qed.

End Runs.

(** * Further properties of the code *)

(** ** chunk *)

Section ChunkMore.

Lemma chunk_loop_negative (k : Z) (rows : list Message) (acc : list (list Message)) :
  (k < 0)%Z → chunk_loop k rows acc = Stop SliceBounds.
Proof.
  intros Hk. funelim (chunk_loop k rows acc).
  - unfold len in *. lia.
  - lia.
  - by rewrite decide_False by lia.
Qed.

(** X1. [chunk] with a size that is not positive never returns chunks
    and never loops: with size 0 it panics on the division that sizes
    the result, with a negative size on the capacity of the result or
    on the first slice expression. *)
Theorem chunk_nonpositive_panics (rows : list Message) (k : Z) :
  (k ≤ 0)%Z →
  ∃ why,
    chunk rows k = Stop why ∧
    why ≠ Hang ∧
    (k = 0%Z → why = DivideByZero) ∧
    (k < 0 → why = MakeSliceCap ∨ why = SliceBounds)%Z.
Proof.
  intros Hk. unfold chunk.
  destruct (decide (k = 0)%Z) as [-> | Hz].
  - exists DivideByZero. repeat split; [done | lia].
  - destruct (decide _) as [Hcap | Hcap].
    + exists MakeSliceCap. repeat split; [done | done | by left].
    + rewrite chunk_loop_negative by lia.
      exists SliceBounds. repeat split; [done | done | by right].
Qed.

Lemma lookup_blocks (k : nat) (full : list (list Message)) (rest : list Message) :
  0 < k → Forall (λ c, length c = k) full → length rest < k →
  ∀ i, (concat full ++ rest) !! i =
       (full ++ [rest]) !! (Nat.div i k) ≫= (λ c, c !! (Nat.modulo i k)).
Proof.
  intros Hk Hall Hrest. induction Hall as [| c full Hc _ IH]; intros i.
  - simpl. destruct (decide (i < k)) as [Hi | Hi].
    + by rewrite Nat.div_small, Nat.mod_small by done.
    + rewrite lookup_ge_None_2 by lia.
      assert (1 ≤ Nat.div i k) by (apply Nat.div_le_lower_bound; lia).
      by destruct (Nat.div i k) as [| [| n]]; [lia | |].
  - simpl. rewrite <- app_assoc. destruct (decide (i < k)) as [Hi | Hi].
    + rewrite lookup_app_l by lia.
      by rewrite Nat.div_small, Nat.mod_small by done.
    + rewrite lookup_app_r by lia. rewrite Hc, IH.
      assert (Nat.div i k = S (Nat.div (i - k) k)) as ->.
      { replace i with ((i - k) + 1 * k) at 1 by lia.
        rewrite Nat.div_add by lia. lia. }
      assert (Nat.modulo i k = Nat.modulo (i - k) k) as ->.
      { replace i with ((i - k) + 1 * k) at 1 by lia.
        by rewrite Nat.Div0.mod_add. }
      done.
Qed.

(** X2. [chunk] keeps every item at its place: with a size k >= 1, the
    item at index i of the input is the item at index i mod k of the
    chunk at index i / k, and beyond the input there is no such item. *)
Theorem chunk_lookup (rows : list Message) (k : Z) (chunks : list (list Message)) :
  (1 ≤ k)%Z →
  chunk rows k = Val chunks →
  ∀ i, rows !! i =
       chunks !! (Nat.div i (Z.to_nat k)) ≫= (λ c, c !! (Nat.modulo i (Z.to_nat k))).
Proof.
  intros Hk Hchunk i.
  destruct (chunk_spec rows k Hk) as (full & rest & Heq & Hcat & Hall & Hlt).
  rewrite Heq in Hchunk. injection Hchunk as <-.
  assert (Forall (λ c : list Message, length c = Z.to_nat k) full) as Hall'.
  { eapply Forall_impl; [exact Hall |]. intros c Hc. unfold len in Hc. simpl in Hc. lia. }
  rewrite <- Hcat.
  rewrite (lookup_blocks (Z.to_nat k) full rest) by (unfold len in *; lia || done).
  destruct (decide (0 < len rest)%Z) as [| Hz]; [done |].
  assert (rest = []) as -> by (destruct rest; [done | unfold len in Hz; simpl in Hz; lia]).
  rewrite app_nil_r.
  destruct (decide (Nat.div i (Z.to_nat k) < length full)) as [Hin | Hout].
  - by rewrite lookup_app_l.
  - rewrite (lookup_ge_None_2 full) by lia.
    rewrite lookup_app_r by lia.
    by destruct (Nat.div i (Z.to_nat k) - length full) as [| n].
Qed.

End ChunkMore.

(** ** NewSQSConsumer *)

Section ConstructionMore.
Context `{Decl : Declarations} {W : Type} `{Out : !Outside W}.
Implicit Types (st : State W) (cf : SQSConf) (conf : option loc).

(** X3. When one of the three AWS environment variables is empty,
    construction logs it and fails with [SentinelErrorConfigAws],
    whatever configuration it was given, a nil one included: the
    environment is checked before the configuration is looked at, and
    the configuration store is left as it was. *)
Theorem construction_needs_environment conf st :
  os_Getenv (world st) "AWS_ACCESS_KEY_ID" = "" ∨
  os_Getenv (world st) "AWS_SECRET_ACCESS_KEY" = "" ∨
  os_Getenv (world st) "AWS_REGION" = "" →
  NewSQSConsumer conf st =
    (Val (None, Some SentinelErrorConfigAws),
     after st (world st)
       [EvLog "One or more AWS environment variables are not set." []]).
Proof.
  intros Henv. unfold NewSQSConsumer. run.
  assert (bool_decide (os_Getenv (world st) "AWS_ACCESS_KEY_ID" = "")
          || bool_decide (os_Getenv (world st) "AWS_SECRET_ACCESS_KEY" = "")
          || bool_decide (os_Getenv (world st) "AWS_REGION" = "") = true) as ->.
  { destruct Henv as [H | [H | H]]; rewrite (bool_decide_true _ H);
      by rewrite ?orb_true_r. }
  done.
Qed.

(** X4. When the environment variables are set but the SDK fails to
    load its configuration, construction logs it and fails with
    [SentinelErrorConfigAws]: the SDK's own error is not returned, and
    the configuration store is left as it was. *)
Theorem construction_hides_load_error conf st (e : error) :
  os_Getenv (world st) "AWS_ACCESS_KEY_ID" ≠ "" →
  os_Getenv (world st) "AWS_SECRET_ACCESS_KEY" ≠ "" →
  os_Getenv (world st) "AWS_REGION" ≠ "" →
  config_LoadDefaultConfig (world st) (os_Getenv (world st) "AWS_REGION")
    {| AccessKeyID := os_Getenv (world st) "AWS_ACCESS_KEY_ID";
       SecretAccessKey := os_Getenv (world st) "AWS_SECRET_ACCESS_KEY";
       SessionToken := "" |} = inr e →
  NewSQSConsumer conf st =
    (Val (None, Some SentinelErrorConfigAws),
     after st (world st) [EvLog "Error creation AWS configuration." []]).
Proof.
  intros Hkey Hsecret Hregion Hload. unfold NewSQSConsumer. run.
  rewrite !bool_decide_false by done. simpl. by rewrite Hload.
Qed.

(** X5. With the environment ready, a nil configuration fails with
    [SentinelErrorConfigIsNil] and a configuration whose queue is empty
    with [SentinelErrorQueueNotSet]; neither logs anything, and in the
    second case no default is written into the caller's object, zero
    fields included. *)
Theorem construction_rejects_configuration st awsCfg :
  aws_ready (world st) awsCfg →
  NewSQSConsumer None st = (Val (None, Some SentinelErrorConfigIsNil), st) ∧
  (∀ l cf, heap st !! l = Some cf → Queue cf = "" →
     NewSQSConsumer (Some l) st = (Val (None, Some SentinelErrorQueueNotSet), st)).
Proof.
  intros (Hkey & Hsecret & Hregion & Hload). split.
  - unfold NewSQSConsumer. run.
    rewrite !bool_decide_false by done. simpl. by rewrite Hload.
  - intros l cf Hst Hqueue. unfold NewSQSConsumer. run.
    rewrite !bool_decide_false by done. simpl. rewrite Hload, Hst.
    by rewrite bool_decide_true.
Qed.

(** X6. Given nil or a pointer to a configuration object, construction
    does not panic and returns either a pool and no error, the pool
    holding the pointer it was given, or no pool and an error, in which
    case the configuration store is as it was; the outside world is
    never changed. *)
Theorem construction_outcome conf st :
  (conf = None ∨ ∃ l cf, conf = Some l ∧ heap st !! l = Some cf) →
  ∃ res st',
    NewSQSConsumer conf st = (Val res, st') ∧
    world st' = world st ∧
    ((∃ pool, res = (Some pool, None) ∧ config pool = conf) ∨
     (∃ e, res = (None, Some e) ∧ heap st' = heap st)).
Proof.
  intros Hconf.
  destruct (decide (os_Getenv (world st) "AWS_ACCESS_KEY_ID" = "")) as [Hkey | Hkey].
  { unfold NewSQSConsumer. run. rewrite (bool_decide_true _ Hkey). simpl.
    eexists _, _. split; [reflexivity |]. split; [done |]. right. by eexists. }
  destruct (decide (os_Getenv (world st) "AWS_SECRET_ACCESS_KEY" = ""))
    as [Hsecret | Hsecret].
  { unfold NewSQSConsumer. run.
    rewrite (bool_decide_true _ Hsecret), orb_true_r. simpl.
    eexists _, _. split; [reflexivity |]. split; [done |]. right. by eexists. }
  destruct (decide (os_Getenv (world st) "AWS_REGION" = "")) as [Hregion | Hregion].
  { unfold NewSQSConsumer. run.
    rewrite (bool_decide_true _ Hregion), orb_true_r. simpl.
    eexists _, _. split; [reflexivity |]. split; [done |]. right. by eexists. }
  destruct (config_LoadDefaultConfig (world st) (os_Getenv (world st) "AWS_REGION")
              {| AccessKeyID := os_Getenv (world st) "AWS_ACCESS_KEY_ID";
                 SecretAccessKey := os_Getenv (world st) "AWS_SECRET_ACCESS_KEY";
                 SessionToken := "" |}) as [awsCfg | e] eqn:Hload.
  2: { unfold NewSQSConsumer. run.
       rewrite !bool_decide_false by done. simpl. rewrite Hload.
       eexists _, _. split; [reflexivity |]. split; [done |]. right. by eexists. }
  assert (aws_ready (world st) awsCfg) as Hready by done.
  destruct Hconf as [-> | (l & cf & -> & Hst)].
  - unfold NewSQSConsumer. run.
    rewrite !bool_decide_false by done. simpl. rewrite Hload.
    eexists _, _. split; [reflexivity |]. split; [done |]. right. by eexists.
  - destruct (decide (Queue cf = "")) as [Hqueue | Hqueue].
    + unfold NewSQSConsumer. run.
      rewrite !bool_decide_false by done. simpl. rewrite Hload, Hst.
      rewrite bool_decide_true by done.
      eexists _, _. split; [reflexivity |]. split; [done |]. right. by eexists.
    + rewrite (NewSQSConsumer_ok st l cf awsCfg Hready Hst Hqueue).
      eexists _, _. split; [reflexivity |]. split; [done |]. left. by eexists.
Qed.

Lemma SQSConf_eq (c1 c2 : SQSConf) :
  Queue c1 = Queue c2 → Concurrency c1 = Concurrency c2 →
  WaitTimeSeconds c1 = WaitTimeSeconds c2 →
  MaxNumberOfMessages c1 = MaxNumberOfMessages c2 →
  VisibilityTimeout c1 = VisibilityTimeout c2 →
  DeleteStrategy c1 = DeleteStrategy c2 → c1 = c2.
Proof. destruct c1, c2. simpl. by intros -> -> -> -> -> ->. Qed.

Lemma defaulted_idempotent cf : defaulted (defaulted cf) = defaulted cf.
Proof.
  destruct (defaulted_fields cf) as (Hq & Hv & Hds & Hc & Hw & Hm).
  destruct (defaulted_fields (defaulted cf)) as (Hq' & Hv' & Hds' & Hc' & Hw' & Hm').
  apply SQSConf_eq; [done | | | | done |].
  - rewrite Hc'. destruct (decide (Concurrency (defaulted cf) = 0%Z)) as [H0 |]; [| done].
    rewrite Hc in *. by destruct (decide (Concurrency cf = 0%Z)).
  - rewrite Hw'. destruct (decide (WaitTimeSeconds (defaulted cf) = 0%Z)) as [H0 |]; [| done].
    rewrite Hw in *. by destruct (decide (WaitTimeSeconds cf = 0%Z)).
  - rewrite Hm'.
    destruct (decide (MaxNumberOfMessages (defaulted cf) = 0%Z)) as [H0 |]; [| done].
    rewrite Hm in *. by destruct (decide (MaxNumberOfMessages cf = 0%Z)).
  - rewrite Hds'. destruct (decide (DeleteStrategy (defaulted cf) = "")) as [H0 |]; [| done].
    rewrite Hds in *. by destruct (decide (DeleteStrategy cf = "")).
Qed.

(** X7. Constructing a second pool from the configuration object a
    first construction has defaulted succeeds again and leaves the
    object as the first construction left it: the defaulting is
    idempotent, and each of the two pools holds the pointer to that one
    object. *)
Theorem construction_twice st l cf awsCfg :
  aws_ready (world st) awsCfg →
  heap st !! l = Some cf →
  Queue cf ≠ "" →
  ∃ pool1 pool2 st1,
    NewSQSConsumer (Some l) st = (Val (Some pool1, None), st1) ∧
    NewSQSConsumer (Some l) st1 = (Val (Some pool2, None), st1) ∧
    config pool1 = Some l ∧
    config pool2 = Some l ∧
    heap st1 !! l = Some (defaulted cf).
Proof.
  intros Hready Hst Hqueue.
  destruct (defaulted_fields cf) as (Hq & _).
  eexists _, _, _. split; [by apply NewSQSConsumer_ok |].
  split.
  - rewrite (NewSQSConsumer_ok (put st l (defaulted cf)) l (defaulted cf) awsCfg);
      [| done | apply put_lookup | by rewrite Hq].
    by rewrite put_put, defaulted_idempotent.
  - split; [done |]. split; [done |]. apply put_lookup.
Qed.

(** X8. The receive request of a pool that was just constructed asks
    the queue of the configuration for all attributes, with the
    visibility timeout as supplied, and with the maximum number of
    messages and the wait time as supplied or, where they were 0, their
    defaults; building the request changes nothing. *)
Theorem request_after_construction st l cf awsCfg :
  aws_ready (world st) awsCfg →
  heap st !! l = Some cf →
  Queue cf ≠ "" →
  ∃ pool st' req,
    NewSQSConsumer (Some l) st = (Val (Some pool, None), st') ∧
    pullMessagesRequest pool st' = (Val req, st') ∧
    ReceiveQueueUrl req = Some (Queue cf) ∧
    MessageSystemAttributeNames req = ["All"] ∧
    MessageAttributeNames req = ["All"] ∧
    ReceiveVisibilityTimeout req = VisibilityTimeout cf ∧
    ReceiveMaxNumberOfMessages req =
      (if decide (MaxNumberOfMessages cf = 0%Z) then DefaultMaxNumberOfMessages
       else MaxNumberOfMessages cf) ∧
    ReceiveWaitTimeSeconds req =
      (if decide (WaitTimeSeconds cf = 0%Z) then DefaultWaitTimeSeconds
       else WaitTimeSeconds cf).
Proof.
  intros Hready Hst Hqueue.
  destruct (defaulted_fields cf) as (Hq & Hv & _ & _ & Hw & Hm).
  eexists _, _, (request_of (defaulted cf)).
  split; [by apply NewSQSConsumer_ok |].
  split; [apply (pullMessagesRequest_valid _ l); [done | apply put_lookup] |].
  simpl. by rewrite Hq, Hv, Hw, Hm.
Qed.

End ConstructionMore.

(** ** handleMessages and deleteSqsMessages *)

Section WorkerMore.
Context `{Decl : Declarations} {W : Type} `{Out : !Outside W}.
Implicit Types (s : SQS) (st : State W) (consumeFn : ConsumerFn W).

Lemma app_eq_split {A} (l1 l2 before later : list A) (x : A) :
  l1 ++ l2 = before ++ x :: later →
  (∃ k, l1 = before ++ x :: k ∧ later = k ++ l2) ∨
  (∃ k, before = l1 ++ k ∧ l2 = k ++ x :: later).
Proof.
  revert before. induction l1 as [| a l1 IH]; intros before Heq.
  - right. by exists before.
  - destruct before as [| b before]; simpl in Heq.
    + injection Heq as -> <-. left. by exists l1.
    + injection Heq as -> Heq.
      destruct (IH before Heq) as [(k & -> & ->) | (k & -> & ->)];
        [left | right]; by exists k.
Qed.

Lemma DeleteRun_inner s cf chunks tr r :
  DeleteRun (sqs s) (Queue cf) chunks tr r →
  Forall (λ c : list Message, 1 ≤ length c ≤ 10) chunks →
  Forall (inner s cf) tr.
Proof.
  induction 1 as [| chunk chunks Hid | chunk chunks e Hid
                  | chunk chunks tr r Hid Hrun IH]; intros Hsize.
  - constructor.
  - constructor.
  - apply Forall_cons in Hsize as [Hc _]. constructor; [| constructor].
    simpl. unfold entries_of. by rewrite length_fmap.
  - apply Forall_cons in Hsize as [Hc Hsize]. constructor; [| by apply IH].
    simpl. unfold entries_of. by rewrite length_fmap.
Qed.

Lemma handler_events_inner s cf messages rets :
  Forall (inner s cf) (handler_events messages rets).
Proof.
  revert rets. induction messages as [| v messages IH]; intros [| ret rets];
    try by constructor.
  rewrite handler_events_cons. constructor; [done |].
  apply Forall_app. split; [| apply IH].
  destruct ret; by repeat constructor.
Qed.

Lemma deleteSqsMessages_inner s l cf (msg : list Message) st :
  config s = Some l → heap st !! l = Some cf →
  ∃ r w tr,
    deleteSqsMessages s msg st = (r, after st w tr) ∧
    Forall (inner s cf) tr ∧ (msg = [] → tr = []).
Proof.
  intros Hs Hst.
  destruct (deleteSqsMessages_run s l cf msg st Hs Hst)
    as (chunks & tr & r & w & Hchunk & Hdel & Hrun).
  destruct (chunk_10 msg) as (chunks' & Hchunk' & _ & Hsize).
  assert (chunks' = chunks) as -> by congruence.
  exists r, w, tr. split; [done |]. split; [by eapply DeleteRun_inner |].
  intros ->. rewrite chunk_10_nil in Hchunk. injection Hchunk as <-.
  by inversion Hrun.
Qed.

Lemma iteration_Pass s consumeFn l cf st :
  config s = Some l → heap st !! l = Some cf →
  ∃ r w tr,
    iteration s consumeFn st = (r, after st w tr) ∧ Pass s cf tr.
Proof.
  intros Hs Hst.
  destruct (ctx_Done (world st)) as [[|] w1] eqn:Hdone.
  { eexists _, _, _. split; [by apply iteration_cancelled |]. constructor. }
  destruct (sqs_ReceiveMessage w1 (sqs s) (request_of cf))
    as [[messages | e] w2] eqn:Hrecv.
  2: { eexists _, _, _. split; [by eapply iteration_receive_error |].
       rewrite <- (app_nil_r (poll _ _ _)). by constructor. }
  destruct (decide (messages = [])) as [-> | Hne].
  { eexists _, _, _. split; [by eapply iteration_empty |]. constructor. }
  rewrite (iteration_batch s consumeFn st l cf w1 w2 _ Hs Hst Hdone Hrecv
             messages eq_refl Hne). simpl.
  set (pl := poll s cf (inl messages)).
  assert (inl messages ≠ (inl [] : list Message + error)) as Hret by congruence.
  assert (∃ r1 w3 pre,
            (if bool_decide (DeleteStrategy cf = DeleteStrategyImmediate)
             then deleteSqsMessages s messages (after st w2 pl)
             else (Val None, after st w2 pl)) = (r1, after st w3 (pl ++ pre)) ∧
            Forall (inner s cf) pre ∧
            (DeleteStrategy cf ≠ DeleteStrategyImmediate → pre = []))
    as (r1 & w3 & pre & -> & Hpre & Hpre_nil).
  { case_bool_decide.
    - destruct (deleteSqsMessages_inner s l cf messages (after st w2 pl) Hs Hst)
        as (r1 & w3 & pre & Hdel & Hin & _).
      rewrite after_after in Hdel. by exists r1, w3, pre.
    - exists (Val None), w2, []. by rewrite app_nil_r. }
  assert (Pass s cf (pl ++ pre)) as Hpass.
  { constructor; [done | done |]. intros Him _. by rewrite Hpre_nil. }
  destruct r1 as [[e |] | why];
    [by exists (Val (Return (Some e))), w3, (pl ++ pre) | |
     by exists (Stop why), w3, (pl ++ pre)].
  clear Hpass.
  destruct (range_messages_run s l cf consumeFn messages Hs []
              (after st w3 (pl ++ pre)) Hst)
    as (hs & rd & w4 & Hrange & Hshape).
  rewrite after_after in Hrange. rewrite Hrange.
  destruct (HandleRun_events _ _ _ _ _ Hshape) as (Hhs & _ & Hval & _).
  assert (Forall (inner s cf) hs) as Hhs_in
    by (rewrite Hhs; apply handler_events_inner).
  assert (delete_calls hs = []) as Hhs_del
    by (by rewrite Hhs, handler_events_no_delete).
  destruct rd as [td | why].
  - destruct (deleteSqsMessages_inner s l cf td
                (after st w4 ((pl ++ pre) ++ hs)) Hs Hst)
      as (r3 & w5 & post & Hdel & Hpost & Hpost_nil).
    rewrite after_after in Hdel. rewrite Hdel. unfold finish. simpl.
    exists (next_of r3), w5, (((pl ++ pre) ++ hs) ++ post). split; [done |].
    rewrite <- !app_assoc. constructor; [done | |].
    + by repeat (apply Forall_app; split).
    + intros Him Hon. rewrite (Hpre_nil Him). simpl.
      destruct (Hval _ eq_refl) as [_ Htd]. simpl in Htd.
      rewrite bool_decide_false in Htd by done. subst td.
      by rewrite (Hpost_nil eq_refl), app_nil_r.
  - exists (Stop why), w4, ((pl ++ pre) ++ hs). split; [done |].
    rewrite <- !app_assoc. constructor; [done | |].
    + by apply Forall_app.
    + intros Him _. by rewrite (Hpre_nil Him).
Qed.

Lemma handleMessages_Passes (fuel : nat) s consumeFn l cf :
  config s = Some l →
  ∀ st, heap st !! l = Some cf →
  ∃ r w tr,
    handleMessages fuel s consumeFn st = (r, after st w tr) ∧ Passes s cf tr.
Proof.
  intros Hs. induction fuel as [| fuel IH]; intros st Hst.
  - exists (Val Continue), (world st), []. rewrite after_nil.
    split; [done | constructor].
  - destruct (iteration_Pass s consumeFn l cf st Hs Hst) as (r & w & tr & Hit & Hpass).
    simpl. unfold mbind at 1, M_bind at 1. rewrite Hit.
    assert (Passes s cf tr) as Hone.
    { rewrite <- (app_nil_r tr). constructor; [done | constructor]. }
    destruct r as [[x |] | why].
    + by exists (Val (Return x)), w, tr.
    + destruct (IH (after st w tr) Hst) as (r' & w' & tr' & Hrest & Hpasses).
      rewrite after_after in Hrest. exists r', w', (tr ++ tr').
      split; [done |]. by constructor.
    + by exists (Stop why), w, tr.
Qed.

Lemma Pass_receive s cf p before c params ret k :
  Pass s cf p → p = before ++ EvReceiveMessage c params ret :: k →
  before = [EvDone false] ∧ c = sqs s ∧ params = request_of cf ∧
  (ret = inl [] → k = [EvSleep 1000000000]).
Proof.
  intros Hpass Heq. destruct Hpass as [| | ret0 rest Hret Hrest _].
  - by destruct before as [| ? [| ? ?]].
  - destruct before as [| ? [| ? [| ? [| ? ?]]]]; try done.
    unfold poll in Heq. simpl in Heq. by inversion Heq; subst.
  - destruct before as [| ? [| ? before]]; try done.
    + unfold poll in Heq. simpl in Heq. by inversion Heq; subst.
    + unfold poll in Heq. simpl in Heq. inversion Heq; subst.
      apply Forall_app in Hrest as [_ Hrest].
      by apply Forall_cons in Hrest as [? _].
Qed.

Lemma Pass_sleep s cf p before d k :
  Pass s cf p → p = before ++ EvSleep d :: k →
  d = 1000000000%Z ∧ k = [] ∧ before = poll s cf (inl []).
Proof.
  intros Hpass Heq. destruct Hpass as [| | ret0 rest Hret Hrest _].
  - by destruct before as [| ? [| ? ?]].
  - destruct before as [| ? [| ? [| ? [| ? ?]]]]; try done.
    unfold poll in *. simpl in Heq. by inversion Heq; subst.
  - destruct before as [| ? [| ? before]]; try done.
    unfold poll in Heq. simpl in Heq. inversion Heq; subst.
    apply Forall_app in Hrest as [_ Hrest].
    by apply Forall_cons in Hrest as [? _].
Qed.

Lemma Pass_deletes s cf p c params ret :
  Pass s cf p → EvDeleteMessageBatch c params ret ∈ p →
  c = sqs s ∧ DeleteQueueUrl params = Some (Queue cf) ∧
  1 ≤ length (Entries params) ≤ 10.
Proof.
  intros Hpass Hin. destruct Hpass as [| | ret0 rest Hret Hrest _].
  - by apply list_elem_of_singleton in Hin.
  - unfold poll in Hin. simpl in Hin.
    repeat (apply elem_of_cons in Hin as [Hin | Hin]; [done |]).
    by apply elem_of_nil in Hin.
  - unfold poll in Hin. simpl in Hin.
    repeat (apply elem_of_cons in Hin as [Hin | Hin]; [done |]).
    by apply (Forall_forall (inner s cf) rest) in Hin.
Qed.

Lemma Pass_no_delete s cf p :
  Pass s cf p →
  DeleteStrategy cf ≠ DeleteStrategyImmediate →
  DeleteStrategy cf ≠ DeleteStrategyOnSuccess →
  delete_calls p = [].
Proof.
  intros Hpass Him Hon. destruct Hpass as [| | ret0 rest Hret Hrest Hnone]; try done.
  unfold poll. simpl. by apply Hnone.
Qed.

(** X9. In every run of the loop of [handleMessages], each
    [ReceiveMessage] call goes to the client of the pool with the
    request built from the configuration, and directly follows a
    cancellation check that found the context not done: the worker
    never polls without having checked for cancellation first. *)
Theorem receives_follow_checks (fuel : nat) s consumeFn l cf st :
  config s = Some l →
  heap st !! l = Some cf →
  ∃ r w tr,
    handleMessages fuel s consumeFn st = (r, after st w tr) ∧
    ∀ before c params ret later,
      tr = before ++ EvReceiveMessage c params ret :: later →
      c = sqs s ∧ params = request_of cf ∧
      ∃ before', before = before' ++ [EvDone false].
Proof.
  intros Hs Hst.
  destruct (handleMessages_Passes fuel s consumeFn l cf Hs st Hst)
    as (r & w & tr & Hrun & Hpasses).
  exists r, w, tr. split; [done |]. clear Hrun.
  induction Hpasses as [| p tr Hpass Hpasses IH]; intros before c params ret later Heq.
  - by destruct before.
  - destruct (app_eq_split _ _ _ _ _ Heq) as [(k & Hp & _) | (k & -> & Hk)].
    + destruct (Pass_receive _ _ _ _ _ _ _ _ Hpass Hp) as (-> & -> & -> & _).
      split; [done |]. split; [done |]. by exists [].
    + destruct (IH _ _ _ _ _ Hk) as (-> & -> & before' & ->).
      split; [done |]. split; [done |]. exists (p ++ before').
      by rewrite app_assoc.
Qed.

(** X10. In every run of the loop of [handleMessages], each empty
    receive is directly followed by a sleep of one second, and the
    worker sleeps at no other moment: each sleep lasts one second and
    directly follows a receive that returned no message. *)
Theorem sleeps_only_when_idle (fuel : nat) s consumeFn l cf st :
  config s = Some l →
  heap st !! l = Some cf →
  ∃ r w tr,
    handleMessages fuel s consumeFn st = (r, after st w tr) ∧
    (∀ before c params later,
       tr = before ++ EvReceiveMessage c params (inl []) :: later →
       ∃ later', later = EvSleep 1000000000 :: later') ∧
    (∀ before d later,
       tr = before ++ EvSleep d :: later →
       d = 1000000000%Z ∧
       ∃ before' c params,
         before = before' ++ [EvReceiveMessage c params (inl [])]).
Proof.
  intros Hs Hst.
  destruct (handleMessages_Passes fuel s consumeFn l cf Hs st Hst)
    as (r & w & tr & Hrun & Hpasses).
  exists r, w, tr. split; [done |]. clear Hrun.
  induction Hpasses as [| p tr Hpass Hpasses [IH1 IH2]].
  - split; intros before; intros; by destruct before.
  - split.
    + intros before c params later Heq.
      destruct (app_eq_split _ _ _ _ _ Heq) as [(k & Hp & ->) | (k & -> & Hk)].
      * destruct (Pass_receive _ _ _ _ _ _ _ _ Hpass Hp) as (_ & _ & _ & Hidle).
        rewrite (Hidle eq_refl). by eexists.
      * by eapply IH1.
    + intros before d later Heq.
      destruct (app_eq_split _ _ _ _ _ Heq) as [(k & Hp & _) | (k & -> & Hk)].
      * destruct (Pass_sleep _ _ _ _ _ _ Hpass Hp) as (-> & _ & ->).
        split; [done |]. by exists [EvDone false], (sqs s), (request_of cf).
      * destruct (IH2 _ _ _ Hk) as (-> & before' & c & params & ->).
        split; [done |]. exists (p ++ before'), c, params. by rewrite app_assoc.
Qed.

(** X11. In every run of the loop of [handleMessages], each
    [DeleteMessageBatch] call goes to the client of the pool, names the
    queue of the configuration, and carries between 1 and 10 entries. *)
Theorem worker_delete_calls (fuel : nat) s consumeFn l cf st :
  config s = Some l →
  heap st !! l = Some cf →
  ∃ r w tr,
    handleMessages fuel s consumeFn st = (r, after st w tr) ∧
    ∀ c params ret,
      EvDeleteMessageBatch c params ret ∈ tr →
      c = sqs s ∧ DeleteQueueUrl params = Some (Queue cf) ∧
      1 ≤ length (Entries params) ≤ 10.
Proof.
  intros Hs Hst.
  destruct (handleMessages_Passes fuel s consumeFn l cf Hs st Hst)
    as (r & w & tr & Hrun & Hpasses).
  exists r, w, tr. split; [done |]. clear Hrun.
  induction Hpasses as [| p tr Hpass Hpasses IH]; intros c params ret Hin.
  - by apply elem_of_nil in Hin.
  - apply elem_of_app in Hin as [Hin | Hin]; [by eapply Pass_deletes | by eapply IH].
Qed.

(** X12. With a delete strategy that is neither
    [DeleteStrategyImmediate] nor [DeleteStrategyOnSuccess], no run of
    the loop of [handleMessages] ever makes a [DeleteMessageBatch]
    call: the messages it handles stay in the queue. *)
Theorem unknown_strategy_never_acknowledges (fuel : nat) s consumeFn l cf st :
  config s = Some l →
  heap st !! l = Some cf →
  DeleteStrategy cf ≠ DeleteStrategyImmediate →
  DeleteStrategy cf ≠ DeleteStrategyOnSuccess →
  ∃ r w tr,
    handleMessages fuel s consumeFn st = (r, after st w tr) ∧
    delete_calls tr = [].
Proof.
  intros Hs Hst Him Hon.
  destruct (handleMessages_Passes fuel s consumeFn l cf Hs st Hst)
    as (r & w & tr & Hrun & Hpasses).
  exists r, w, tr. split; [done |]. clear Hrun.
  induction Hpasses as [| p tr Hpass Hpasses IH]; [done |].
  by rewrite delete_calls_app, (Pass_no_delete s cf p), IH.
Qed.

(** X13. Under [DeleteStrategyImmediate], a pass that received
    [messages] acknowledges them once only: the [DeleteMessageBatch]
    calls of the whole pass carry, in order, entries of the received
    messages and nothing else, and all of them when the pass goes on to
    the next one; nothing is acknowledged a second time after the
    dispatch. *)
Theorem immediate_acknowledges_once s consumeFn st l cf w1 w2
    (messages : list Message) :
  config s = Some l →
  heap st !! l = Some cf →
  ctx_Done (world st) = (false, w1) →
  sqs_ReceiveMessage w1 (sqs s) (request_of cf) = (inl messages, w2) →
  messages ≠ [] →
  DeleteStrategy cf = DeleteStrategyImmediate →
  DeleteStrategyImmediate ≠ DeleteStrategyOnSuccess →
  ∃ r w tr,
    iteration s consumeFn st = (r, after st w tr) ∧
    concat (delete_calls tr) `prefix_of` entries_of messages ∧
    (r = Val Continue → concat (delete_calls tr) = entries_of messages).
Proof.
  intros Hs Hst Hdone Hrecv Hne Him Hdiff.
  rewrite (iteration_batch s consumeFn st l cf w1 w2 _ Hs Hst Hdone Hrecv
             messages eq_refl Hne).
  rewrite bool_decide_true by done. simpl.
  set (pl := poll s cf (inl messages)).
  destruct (deleteSqsMessages_run s l cf messages (after st w2 pl) Hs Hst)
    as (chunks & pre & r1 & w3 & Hchunk & Hdel & Hrun).
  rewrite after_after in Hdel. rewrite Hdel.
  destruct (chunk_10 messages) as (chunks' & Hchunk' & Hcat & _).
  assert (chunks' = chunks) as -> by congruence.
  destruct (DeleteRun_calls _ _ _ _ _ Hrun) as (_ & Hpre & Hok).
  assert (concat (delete_calls (pl ++ pre)) `prefix_of` entries_of messages) as Hprefix.
  { rewrite delete_calls_app. simpl. rewrite <- Hcat, <- entries_of_concat.
    destruct Hpre as [rest ->]. rewrite concat_app. by eexists. }
  destruct r1 as [[e |] | why];
    [by exists (Val (Return (Some e))), w3, (pl ++ pre) | |
     by exists (Stop why), w3, (pl ++ pre)].
  destruct (range_messages_run s l cf consumeFn messages Hs []
              (after st w3 (pl ++ pre)) Hst)
    as (hs & rd & w4 & Hrange & Hshape).
  rewrite after_after in Hrange. rewrite Hrange.
  destruct (HandleRun_events _ _ _ _ _ Hshape) as (Hhs & _ & Hval & _).
  assert (delete_calls ((pl ++ pre) ++ hs) = delete_calls (pl ++ pre)) as Hsame.
  { by rewrite (delete_calls_app (pl ++ pre)), Hhs, handler_events_no_delete,
       app_nil_r. }
  destruct rd as [td | why].
  - destruct (Hval _ eq_refl) as [_ Htd]. simpl in Htd.
    rewrite bool_decide_false in Htd by congruence. subst td.
    exists (Val Continue), w4, ((pl ++ pre) ++ hs).
    split; [done |]. rewrite Hsame. split; [done |].
    intros _. rewrite delete_calls_app, (Hok eq_refl). simpl.
    by rewrite entries_of_concat, Hcat.
  - exists (Stop why), w4, ((pl ++ pre) ++ hs).
    split; [done |]. by rewrite Hsame.
Qed.

Lemma DeleteRun_error_shape c q chunks tr e :
  DeleteRun c q chunks tr (Val (Some e)) →
  ∃ done failed rest,
    chunks = done ++ failed :: rest ∧
    tr = ((λ ch, delete_event c q ch None) <$> done) ++
         [delete_event c q failed (Some e)].
Proof.
  intros Hrun. remember (Val (Some e)) as r eqn:Hr.
  induction Hrun as [| chunk chunks Hid | chunk chunks e' Hid
                     | chunk chunks tr r Hid Hrun IH]; try done.
  - injection Hr as ->. by exists [], chunk, chunks.
  - destruct (IH Hr) as (done & failed & rest & -> & ->).
    by exists (chunk :: done), failed, rest.
Qed.

(** X14. When [deleteSqsMessages] returns an error, it is the answer
    of its last [DeleteMessageBatch] call: the chunks before the failed
    one were deleted with success, and the chunks after it were not
    submitted, nor was the failed one tried again. *)
Theorem delete_stops_at_first_error s l cf (msg : list Message) st (e : error) st' :
  config s = Some l →
  heap st !! l = Some cf →
  deleteSqsMessages s msg st = (Val (Some e), st') →
  ∃ w done failed rest,
    chunk msg 10 = Val (done ++ failed :: rest) ∧
    st' = after st w
            (((λ ch, delete_event (sqs s) (Queue cf) ch None) <$> done) ++
             [delete_event (sqs s) (Queue cf) failed (Some e)]).
Proof.
  intros Hs Hst Hdel.
  destruct (deleteSqsMessages_run s l cf msg st Hs Hst)
    as (chunks & tr & r & w & Hchunk & Hdel' & Hrun).
  rewrite Hdel in Hdel'. injection Hdel' as <- ->.
  destruct (DeleteRun_error_shape _ _ _ _ _ Hrun) as (done & failed & rest & -> & ->).
  by exists w, done, failed, rest.
Qed.

Lemma DeleteRun_stop c q chunks tr why :
  DeleteRun c q chunks tr (Stop why) →
  why = NilDereference ∧ ¬ Forall has_id (concat chunks).
Proof.
  intros Hrun. remember (Stop why) as r eqn:Hr.
  induction Hrun as [| chunk chunks Hid | chunk chunks e' Hid
                     | chunk chunks tr r Hid Hrun IH]; try done.
  - injection Hr as <-. split; [done |]. simpl. intros Hall.
    by apply Forall_app in Hall as [? _].
  - destruct (IH Hr) as [-> Hno]. split; [done |]. simpl. intros Hall.
    by apply Forall_app in Hall as [_ ?].
Qed.

(** X15. [deleteSqsMessages] on a pool with a configuration panics
    only on a message without [MessageId], with a nil dereference: when
    every message has one it returns, nil or an error, and an error it
    returns is the answer of its last [DeleteMessageBatch] call. *)
Theorem delete_panics_only_without_id s l cf (msg : list Message) st :
  config s = Some l →
  heap st !! l = Some cf →
  ∃ r w tr,
    deleteSqsMessages s msg st = (r, after st w tr) ∧
    (Forall has_id msg → ∃ err, r = Val err) ∧
    (∀ why, r = Stop why → why = NilDereference ∧ ¬ Forall has_id msg) ∧
    (∀ e, r = Val (Some e) →
       ∃ before c params, tr = before ++ [EvDeleteMessageBatch c params (Some e)]).
Proof.
  intros Hs Hst.
  destruct (deleteSqsMessages_run s l cf msg st Hs Hst)
    as (chunks & tr & r & w & Hchunk & Hdel & Hrun).
  destruct (chunk_10 msg) as (chunks' & Hchunk' & Hcat & _).
  assert (chunks' = chunks) as -> by congruence.
  exists r, w, tr. split; [done |].
  assert (∀ why, r = Stop why → why = NilDereference ∧ ¬ Forall has_id msg) as Hstop.
  { intros why ->. rewrite <- Hcat. by eapply DeleteRun_stop. }
  split; [| split; [done |]].
  - intros Hall. destruct r as [err | why]; [by exists err |].
    by destruct (Hstop why eq_refl) as [_ ?].
  - intros e ->.
    destruct (DeleteRun_error_shape _ _ _ _ _ Hrun) as (done & failed & rest & _ & ->).
    by eexists _, _, _.
Qed.

(** X16. A pool without configuration (the zero value of [SQS]) cannot
    poll: unless the context is already done, the first pass through
    the loop panics with a nil dereference right after the cancellation
    check, before any call to the queue. *)
Theorem worker_without_configuration (fuel : nat) s consumeFn st w :
  config s = None →
  ctx_Done (world st) = (false, w) →
  handleMessages (S fuel) s consumeFn st =
    (Stop NilDereference, after st w [EvDone false]).
Proof.
  intros Hs Hdone. simpl. unfold mbind at 1, M_bind at 1.
  rewrite (iteration_noconf s consumeFn st w Hdone); [done |].
  intros w' tr. by rewrite Hs.
Qed.

End WorkerMore.

(** ** The further properties on concrete inputs *)

Section RunsMore.
Existing Instance spec_declarations.

Lemma chunk_nonpositive_panics_witness :
  ∃ why,
    chunk three (-1) = Stop why ∧
    why ≠ Hang ∧
    ((-1)%Z = 0%Z → why = DivideByZero) ∧
    (-1 < 0 → why = MakeSliceCap ∨ why = SliceBounds)%Z.
Proof. apply (chunk_nonpositive_panics three (-1)). lia. Defined.

Lemma chunk_lookup_witness :
  three !! 2 =
    [[message "A" "a"; message "B" "b"]; [message "C" "c"]]
      !! (Nat.div 2 (Z.to_nat 2)) ≫= (λ c, c !! (Nat.modulo 2 (Z.to_nat 2))).
Proof. apply (chunk_lookup three 2); [lia | reflexivity]. Defined.

Lemma construction_needs_environment_witness :
  let w := {| script_env := ∅; script_load := None; script_done := [];
              script_receive := []; script_delete := [] |} in
  let st := test_state zero_conf w in
  NewSQSConsumer None st =
    (Val (None, Some SentinelErrorConfigAws),
     after st w [EvLog "One or more AWS environment variables are not set." []]).
Proof.
  intros w st. apply (construction_needs_environment None st). left. reflexivity.
Defined.

Lemma construction_hides_load_error_witness :
  let w := {| script_env := aws_env; script_load := Some "no shared profile";
              script_done := []; script_receive := []; script_delete := [] |} in
  let st := test_state zero_conf w in
  NewSQSConsumer (Some 0) st =
    (Val (None, Some SentinelErrorConfigAws),
     after st w [EvLog "Error creation AWS configuration." []]).
Proof.
  intros w st.
  apply (construction_hides_load_error (Some 0) st "no shared profile");
    try discriminate; reflexivity.
Defined.

Lemma construction_rejects_configuration_witness :
  let cf := {| Queue := ""; Concurrency := 0; WaitTimeSeconds := 0;
               MaxNumberOfMessages := 0; VisibilityTimeout := 30;
               DeleteStrategy := "" |} in
  let st := test_state cf (test_script [] []) in
  NewSQSConsumer None st = (Val (None, Some SentinelErrorConfigIsNil), st) ∧
  NewSQSConsumer (Some 0) st = (Val (None, Some SentinelErrorQueueNotSet), st).
Proof.
  intros cf st.
  destruct (construction_rejects_configuration st (client_config test_client)
              (aws_ready_test [])) as [Hnil Hqueue].
  split; [exact Hnil | apply (Hqueue 0 cf); reflexivity].
Defined.

Lemma construction_outcome_witness :
  let st := test_state zero_conf (test_script [] []) in
  ∃ res st',
    NewSQSConsumer (Some 0) st = (Val res, st') ∧
    world st' = world st ∧
    ((∃ pool, res = (Some pool, None) ∧ config pool = Some 0) ∨
     (∃ e, res = (None, Some e) ∧ heap st' = heap st)).
Proof.
  intros st. apply (construction_outcome (Some 0) st).
  right. exists 0, zero_conf. split; reflexivity.
Defined.

Lemma construction_twice_witness :
  let st := test_state zero_conf (test_script [] []) in
  ∃ pool1 pool2 st1,
    NewSQSConsumer (Some 0) st = (Val (Some pool1, None), st1) ∧
    NewSQSConsumer (Some 0) st1 = (Val (Some pool2, None), st1) ∧
    config pool1 = Some 0 ∧
    config pool2 = Some 0 ∧
    heap st1 !! 0 = Some (defaulted zero_conf).
Proof.
  intros st.
  apply (construction_twice st 0 zero_conf (client_config test_client));
    [apply aws_ready_test | reflexivity | discriminate].
Defined.

Lemma request_after_construction_witness :
  let st := test_state zero_conf (test_script [] []) in
  ∃ pool st' req,
    NewSQSConsumer (Some 0) st = (Val (Some pool, None), st') ∧
    pullMessagesRequest pool st' = (Val req, st') ∧
    ReceiveQueueUrl req = Some "queue" ∧
    MessageSystemAttributeNames req = ["All"] ∧
    MessageAttributeNames req = ["All"] ∧
    ReceiveVisibilityTimeout req = 30%Z ∧
    ReceiveMaxNumberOfMessages req = DefaultMaxNumberOfMessages ∧
    ReceiveWaitTimeSeconds req = DefaultWaitTimeSeconds.
Proof.
  intros st.
  apply (request_after_construction st 0 zero_conf (client_config test_client));
    [apply aws_ready_test | reflexivity | discriminate].
Defined.

Lemma receives_follow_checks_witness :
  let cf := test_conf "OnSuccess" in
  let st := test_state cf (test_script [inl three; inl []] []) in
  ∃ r w tr,
    handleMessages 3 test_sqs (fails_on ["b"]) st = (r, after st w tr) ∧
    ∀ before c params ret later,
      tr = before ++ EvReceiveMessage c params ret :: later →
      c = sqs test_sqs ∧ params = request_of cf ∧
      ∃ before', before = before' ++ [EvDone false].
Proof.
  intros cf st.
  apply (receives_follow_checks 3 test_sqs (fails_on ["b"]) 0 cf st); reflexivity.
Defined.

Lemma sleeps_only_when_idle_witness :
  let cf := test_conf "OnSuccess" in
  let st := test_state cf (test_script [inl three; inl []] []) in
  ∃ r w tr,
    handleMessages 3 test_sqs (fails_on ["b"]) st = (r, after st w tr) ∧
    (∀ before c params later,
       tr = before ++ EvReceiveMessage c params (inl []) :: later →
       ∃ later', later = EvSleep 1000000000 :: later') ∧
    (∀ before d later,
       tr = before ++ EvSleep d :: later →
       d = 1000000000%Z ∧
       ∃ before' c params,
         before = before' ++ [EvReceiveMessage c params (inl [])]).
Proof.
  intros cf st.
  apply (sleeps_only_when_idle 3 test_sqs (fails_on ["b"]) 0 cf st); reflexivity.
Defined.

Lemma worker_delete_calls_witness :
  let cf := test_conf "OnSuccess" in
  let st := test_state cf (test_script [inl three; inl []] []) in
  ∃ r w tr,
    handleMessages 3 test_sqs (fails_on ["b"]) st = (r, after st w tr) ∧
    ∀ c params ret,
      EvDeleteMessageBatch c params ret ∈ tr →
      c = sqs test_sqs ∧ DeleteQueueUrl params = Some (Queue cf) ∧
      1 ≤ length (Entries params) ≤ 10.
Proof.
  intros cf st.
  apply (worker_delete_calls 3 test_sqs (fails_on ["b"]) 0 cf st); reflexivity.
Defined.

Lemma unknown_strategy_never_acknowledges_witness :
  let cf := test_conf "foo" in
  let st := test_state cf (test_script [inl three; inl []] []) in
  ∃ r w tr,
    handleMessages 3 test_sqs (fails_on ["b"]) st = (r, after st w tr) ∧
    delete_calls tr = [].
Proof.
  intros cf st.
  apply (unknown_strategy_never_acknowledges 3 test_sqs (fails_on ["b"]) 0 cf st);
    try reflexivity; discriminate.
Defined.

Lemma immediate_acknowledges_once_witness :
  let cf := test_conf "Immediate" in
  let w := test_script [inl three] [] in
  let st := test_state cf w in
  ∃ r w' tr,
    iteration test_sqs (fails_on ["b"]) st = (r, after st w' tr) ∧
    concat (delete_calls tr) `prefix_of` entries_of three ∧
    (r = Val Continue → concat (delete_calls tr) = entries_of three).
Proof.
  intros cf w st.
  apply (immediate_acknowledges_once test_sqs (fails_on ["b"]) st 0 cf
           (after_check w) (after_receive w cf) three);
    try reflexivity; discriminate.
Defined.

Lemma delete_stops_at_first_error_witness :
  let cf := test_conf "OnSuccess" in
  let msg := replicate 25 (message "A" "a") in
  let st := test_state cf (test_script [] [None; Some "throttled"]) in
  let st' := (deleteSqsMessages test_sqs msg st).2 in
  ∃ w done failed rest,
    chunk msg 10 = Val (done ++ failed :: rest) ∧
    st' = after st w
            (((λ ch, delete_event (sqs test_sqs) (Queue cf) ch None) <$> done) ++
             [delete_event (sqs test_sqs) (Queue cf) failed (Some "throttled")]).
Proof.
  intros cf msg st st'.
  apply (delete_stops_at_first_error test_sqs 0 cf msg st "throttled" st');
    reflexivity.
Defined.

Lemma delete_panics_only_without_id_witness :
  let cf := test_conf "OnSuccess" in
  let st := test_state cf (test_script [] []) in
  ∃ r w tr,
    deleteSqsMessages test_sqs three st = (r, after st w tr) ∧
    (Forall has_id three → ∃ err, r = Val err) ∧
    (∀ why, r = Stop why → why = NilDereference ∧ ¬ Forall has_id three) ∧
    (∀ e, r = Val (Some e) →
       ∃ before c params, tr = before ++ [EvDeleteMessageBatch c params (Some e)]).
Proof.
  intros cf st.
  apply (delete_panics_only_without_id test_sqs 0 cf three st); reflexivity.
Defined.

Lemma worker_without_configuration_witness :
  let s := {| config := None; sqs := test_client |} in
  let w := test_script [inl three] [] in
  let st := test_state (test_conf "OnSuccess") w in
  handleMessages 3 s (fails_on []) st =
    (Stop NilDereference, after st (after_check w) [EvDone false]).
Proof.
  intros s w st.
  apply (worker_without_configuration 2 s (fails_on []) st (after_check w));
    reflexivity.
Defined.

End RunsMore.
